(** * ESP32 robotic arm web controller (app.js): model and properties

    The controller keeps a local mirror of five joint angles, sends
    one-character commands over a BLE characteristic and runs preset
    sequences of such commands.  The browser runs every handler on one
    thread; the model below passes the module-level variables of app.js
    explicitly as a [State], and gives every [await] its outcome (the
    settlement of the write, the events handled while a timer runs) as an
    argument. *)

From Stdlib Require Import ZArith String List Bool Lia.
Import ListNotations.

Local Open Scope Z_scope.
Local Open Scope string_scope.

(** ** Data model *)

(** The keys of [jointAngles]; [updateAngleDisplay] is only ever called with
    these five literals. *)
Inductive Joint : Type := JBase | JShoulder | JElbow | JWrist | JGripper.

(** The object [jointAngles].  All stored numbers are integers reached from
    the literals by adding and subtracting 10, so [Z] represents them exactly. *)
Record JointAngles : Type := mkAngles {
  base : Z;
  shoulder : Z;
  elbow : Z;
  wrist : Z;
  gripper : Z
}.

(** The second argument of [addLog]. *)
Inductive LogType : Type := Info | Success | Error | Warning.

(** How the promise returned by [rxCharacteristic.writeValue] settles. *)
Inductive WriteResult : Type :=
| Accepted
| Rejected (message : string).

(** The module-level variables.  [device] holds the name of the selected
    device when it is not null; [server], [service] and [rxCharacteristic]
    record whether the variable is non-null.  [console] is the sequence of
    [addLog] calls, and [written] the sequence of [writeValue] calls with the
    encoded command and the settlement of each. *)
Record State : Type := mkState {
  device : option string;
  server : bool;
  service : bool;
  rxCharacteristic : bool;
  jointAngles : JointAngles;
  console : list (string * LogType);
  written : list (string * WriteResult)
}.

Definition initialAngles : JointAngles :=
  {| base := 90; shoulder := 130; elbow := 90; wrist := 90; gripper := 90 |}.

Definition initialState : State :=
  {| device := None; server := false; service := false;
     rxCharacteristic := false; jointAngles := initialAngles;
     console := []; written := [] |}.

(** [commandMap]: the ten tokens and the action each names. *)
Definition commandMap : list (string * string) :=
  [ ("A", "base-inc"); ("B", "base-dec");
    ("C", "shoulder-inc"); ("D", "shoulder-dec");
    ("E", "elbow-inc"); ("F", "elbow-dec");
    ("G", "wrist-inc"); ("H", "wrist-dec");
    ("I", "gripper-inc"); ("J", "gripper-dec") ].

Definition tokens : list string := map fst commandMap.

(** ** Utility functions *)

Definition addLog (message : string) (type : LogType) (st : State) : State :=
  {| device := device st; server := server st; service := service st;
     rxCharacteristic := rxCharacteristic st; jointAngles := jointAngles st;
     console := console st ++ [(message, type)];
     written := written st |}.

Definition getAngle (joint : Joint) (a : JointAngles) : Z :=
  match joint with
  | JBase => base a
  | JShoulder => shoulder a
  | JElbow => elbow a
  | JWrist => wrist a
  | JGripper => gripper a
  end.

(** [jointAngles[joint] = angle]. *)
Definition setAngle (joint : Joint) (angle : Z) (a : JointAngles) : JointAngles :=
  match joint with
  | JBase => mkAngles angle (shoulder a) (elbow a) (wrist a) (gripper a)
  | JShoulder => mkAngles (base a) angle (elbow a) (wrist a) (gripper a)
  | JElbow => mkAngles (base a) (shoulder a) angle (wrist a) (gripper a)
  | JWrist => mkAngles (base a) (shoulder a) (elbow a) angle (gripper a)
  | JGripper => mkAngles (base a) (shoulder a) (elbow a) (wrist a) angle
  end.

(** [updateAngleDisplay]: besides the text of the page element, which is not
    modelled, it stores the angle. *)
Definition updateAngleDisplay (joint : Joint) (angle : Z) (st : State) : State :=
  {| device := device st; server := server st; service := service st;
     rxCharacteristic := rxCharacteristic st;
     jointAngles := setAngle joint angle (jointAngles st);
     console := console st; written := written st |}.

(** [updateConnectionStatus]: of its effects only the log line is kept. *)
Definition updateConnectionStatus (connected : bool) (st : State) : State :=
  if connected then addLog "Connected to BLE device" Success st
  else addLog "Disconnected from BLE device" Info st.

(** ** BLE communication *)

(** [updateLocalAngle]: a [switch] over the command with ten cases and no
    default. *)
Definition updateLocalAngle (command : string) (st : State) : State :=
  let stepSize := 10 in
  let a := jointAngles st in
  if String.eqb command "A" then
    updateAngleDisplay JBase (Z.min (base a + stepSize) 180) st
  else if String.eqb command "B" then
    updateAngleDisplay JBase (Z.max (base a - stepSize) 0) st
  else if String.eqb command "C" then
    updateAngleDisplay JShoulder (Z.min (shoulder a + stepSize) 210) st
  else if String.eqb command "D" then
    updateAngleDisplay JShoulder (Z.max (shoulder a - stepSize) 120) st
  else if String.eqb command "E" then
    updateAngleDisplay JElbow (Z.min (elbow a + stepSize) 180) st
  else if String.eqb command "F" then
    updateAngleDisplay JElbow (Z.max (elbow a - stepSize) 0) st
  else if String.eqb command "G" then
    updateAngleDisplay JWrist (Z.min (wrist a + stepSize) 180) st
  else if String.eqb command "H" then
    updateAngleDisplay JWrist (Z.max (wrist a - stepSize) 0) st
  else if String.eqb command "I" then
    updateAngleDisplay JGripper (Z.min (gripper a + stepSize) 180) st
  else if String.eqb command "J" then
    updateAngleDisplay JGripper (Z.max (gripper a - stepSize) 0) st
  else st.

(** The guard of [sendCommand] and of the key handler:
    [device && rxCharacteristic]. *)
Definition linkReady (st : State) : bool :=
  match device st with
  | Some _ => rxCharacteristic st
  | None => false
  end.

(** The call [rxCharacteristic.writeValue(data)], recorded with the way it
    settles; [data] is the encoding of the command. *)
Definition writeValue (data : string) (w : WriteResult) (st : State) : State :=
  {| device := device st; server := server st; service := service st;
     rxCharacteristic := rxCharacteristic st; jointAngles := jointAngles st;
     console := console st;
     written := written st ++ [(data, w)] |}.

(** [sendCommand]; [w] is the settlement of the write when it comes to one.
    Every path ends the call normally: the guard returns, and the [catch]
    block does not rethrow. *)
Definition sendCommand (w : WriteResult) (command : string) (st : State) : State :=
  if negb (linkReady st) then
    addLog "Error: Device not connected" Error st
  else
    let st := writeValue command w st in
    match w with
    | Accepted =>
        let st := addLog ("Sent command: " ++ command) Success st in
        updateLocalAngle command st
    | Rejected message =>
        addLog ("Error sending command: " ++ message) Error st
    end.

(** How a call of an [async] function ends for the code that awaits it:
    the promise is fulfilled, or it is rejected with an error, which the
    [await] of the caller throws. *)
Inductive Completion : Type :=
| Resolves
| Throws (message : string).

(** How a call of [sendCommand] ends for its caller, path by path: the
    guard ends the call with a plain [return]; the [try] block runs to its
    end; the [catch] block logs the error of the write and ends without
    throwing it again. *)
Definition sendCommandSettles (w : WriteResult) (command : string)
    (st : State) : Completion :=
  if negb (linkReady st) then
    Resolves
  else
    match w with
    | Accepted => Resolves
    | Rejected message => Resolves
    end.

(** How [connectDevice] proceeds: which of its four awaited calls rejects,
    with the error's message, or that all of them resolve.  [name] is the
    name of the device the user selected. *)
Inductive ConnectResult : Type :=
| RequestDeviceFailed (message : string)
| GattConnectFailed (name message : string)
| GetServiceFailed (name message : string)
| GetCharacteristicFailed (name message : string)
| Connected (name : string).

Definition setDevice (d : option string) (st : State) : State :=
  {| device := d; server := server st; service := service st;
     rxCharacteristic := rxCharacteristic st; jointAngles := jointAngles st;
     console := console st; written := written st |}.

Definition setServer (b : bool) (st : State) : State :=
  {| device := device st; server := b; service := service st;
     rxCharacteristic := rxCharacteristic st; jointAngles := jointAngles st;
     console := console st; written := written st |}.

Definition setService (b : bool) (st : State) : State :=
  {| device := device st; server := server st; service := b;
     rxCharacteristic := rxCharacteristic st; jointAngles := jointAngles st;
     console := console st; written := written st |}.

Definition setRxCharacteristic (b : bool) (st : State) : State :=
  {| device := device st; server := server st; service := service st;
     rxCharacteristic := b; jointAngles := jointAngles st;
     console := console st; written := written st |}.

(** The [catch] block of [connectDevice]. *)
Definition connectionError (message : string) (st : State) : State :=
  updateConnectionStatus false (addLog ("Connection error: " ++ message) Error st).

Definition connectDevice (r : ConnectResult) (st : State) : State :=
  let st := addLog "Scanning for BLE devices..." Info st in
  let found name st :=
    addLog ("Found device: " ++ name) Info (setDevice (Some name) st) in
  let gatt st := addLog "Connected to GATT server" Success (setServer true st) in
  let uart st := addLog "Found Nordic UART service" Success (setService true st) in
  let rx st :=
    addLog "Found RX characteristic" Success (setRxCharacteristic true st) in
  match r with
  | RequestDeviceFailed message => connectionError message st
  | GattConnectFailed name message => connectionError message (found name st)
  | GetServiceFailed name message => connectionError message (gatt (found name st))
  | GetCharacteristicFailed name message =>
      connectionError message (uart (gatt (found name st)))
  | Connected name =>
      updateConnectionStatus true (rx (uart (gatt (found name st))))
  end.

(** [onDisconnected], the listener of [gattserverdisconnected]. *)
Definition onDisconnected (st : State) : State :=
  let st := setDevice None st in
  let st := setServer false st in
  let st := setService false st in
  let st := setRxCharacteristic false st in
  updateConnectionStatus false st.

(** [disconnectDevice]; [gattConnected] is [device.gatt.connected] and
    [thrown] the message of the error [device.gatt.disconnect()] throws, if
    it throws.  A connected server fires [gattserverdisconnected] at the
    device inside that call, so a listener registered there runs before the
    call is over: [listenerRan] tells whether [onDisconnected] did
    ([connectDevice] registers it on the device at the end of an attempt
    that succeeded).  The line of [disconnectDevice] is logged after it. *)
Definition disconnectDevice (gattConnected listenerRan : bool)
    (thrown : option string) (st : State) : State :=
  match device st with
  | Some _ =>
      if gattConnected then
        let st := if listenerRan then onDisconnected st else st in
        match thrown with
        | None => addLog "Disconnecting from device..." Info st
        | Some message => addLog ("Disconnection error: " ++ message) Error st
        end
      else st
  | None => st
  end.

(** ** Event listeners *)

(** [keyMap] of the [keydown] listener.  [event.key] is a key value of the
    UI Events specification, none of which names a property that an object
    literal inherits, so [event.key in keyMap] is membership in this table. *)
Definition keyMap : list (string * string) :=
  [ ("a", "A"); ("A", "A"); ("b", "B"); ("B", "B");
    ("c", "C"); ("C", "C"); ("d", "D"); ("D", "D");
    ("e", "E"); ("E", "E"); ("f", "F"); ("F", "F");
    ("g", "G"); ("G", "G"); ("h", "H"); ("H", "H");
    ("i", "I"); ("I", "I"); ("j", "J"); ("J", "J") ].

Fixpoint lookup (key : string) (table : list (string * string)) : option string :=
  match table with
  | [] => None
  | (k, v) :: rest => if String.eqb key k then Some v else lookup key rest
  end.

(** The [keydown] listener. *)
Definition keydown (w : WriteResult) (key : string) (st : State) : State :=
  if negb (linkReady st) then st
  else
    match lookup key keyMap with
    | Some command => sendCommand w command st
    | None => st
    end.

(** What the page can be told while no preset runs, or while a preset waits
    on its timer: a click on Connect, on Disconnect or on a joint button
    (with its [data-command]), the loss of the link (reported by the
    browser, not brought about by the page), a key press.  A listener that
    sends a command carries the settlement of its write. *)
Inductive Event : Type :=
| ClickConnect (r : ConnectResult)
| ClickDisconnect (gattConnected listenerRan : bool) (thrown : option string)
| Gattserverdisconnected
| ClickJoint (command : string) (w : WriteResult)
| KeyPress (key : string) (w : WriteResult).

Definition handle (e : Event) (st : State) : State :=
  match e with
  | ClickConnect r => connectDevice r st
  | ClickDisconnect gattConnected listenerRan thrown =>
      disconnectDevice gattConnected listenerRan thrown st
  | Gattserverdisconnected => onDisconnected st
  | ClickJoint command w => sendCommand w command st
  | KeyPress key w => keydown w key st
  end.

Definition handleAll (events : list Event) (st : State) : State :=
  fold_left (fun s e => handle e s) events st.

(** ** Preset positions *)

(** One iteration of a preset's loop, as the outside world shapes it: how
    the write of its [sendCommand] settles, and the events handled while
    the timer that follows is pending. *)
Record Tick : Type := mkTick {
  settles : WriteResult;
  meanwhile : list Event
}.

(** The iteration nothing interferes with. *)
Definition quiet : Tick := {| settles := Accepted; meanwhile := [] |}.

Definition nextTick (env : list Tick) : Tick * list Tick :=
  match env with
  | [] => (quiet, [])
  | t :: env' => (t, env')
  end.

(** [await new Promise(resolve => setTimeout(resolve, ms))]: the listeners
    of the events arriving in the meantime run before the caller resumes. *)
Definition sleep (ms : Z) (events : list Event) (st : State) : State :=
  handleAll events st.

(** [await sendCommand(cmd); await <timer of ms>], the body of every
    preset loop. *)
Definition sendAndWait (ms : Z) (cmd : string) (t : Tick) (st : State) : State :=
  sleep ms (meanwhile t) (sendCommand (settles t) cmd st).

Definition homeCommands : list string :=
  [ "B"; "B"; "B"; "B"; "B"; "D"; "D"; "D"; "D"; "D";
    "F"; "F"; "F"; "F"; "F"; "H"; "H"; "H"; "H"; "H";
    "J"; "J"; "J"; "J"; "J" ].

(** [for (const cmd of commands) { ... }] *)
Fixpoint forEachCommand (ms : Z) (commands : list string) (env : list Tick)
    (st : State) : list Tick * State :=
  match commands with
  | [] => (env, st)
  | cmd :: rest =>
      let (t, env') := nextTick env in
      forEachCommand ms rest env' (sendAndWait ms cmd t st)
  end.

Definition moveToHome (env : list Tick) (st : State) : State :=
  let st := addLog "Moving to HOME position..." Info st in
  let st := snd (forEachCommand 100 homeCommands env st) in
  let st := updateAngleDisplay JBase 90 st in
  let st := updateAngleDisplay JShoulder 90 st in
  let st := updateAngleDisplay JElbow 90 st in
  let st := updateAngleDisplay JWrist 90 st in
  let st := updateAngleDisplay JGripper 90 st in
  addLog "Reached HOME position" Success st.

(** An entry of the [sequence] arrays of [moveToGrab] and [moveToReach]. *)
Record Step : Type := mkStep {
  cmd : string;
  count : nat;
  desc : string
}.

(** [for (let i = 0; i < step.count; i++) { ... }] *)
Fixpoint repeatCommand (ms : Z) (command : string) (n : nat) (env : list Tick)
    (st : State) : list Tick * State :=
  match n with
  | O => (env, st)
  | S n' =>
      let (t, env') := nextTick env in
      repeatCommand ms command n' env' (sendAndWait ms command t st)
  end.

(** [for (const step of sequence) { ... }] *)
Fixpoint forEachStep (ms : Z) (sequence : list Step) (env : list Tick)
    (st : State) : list Tick * State :=
  match sequence with
  | [] => (env, st)
  | step :: rest =>
      let (env', st') := repeatCommand ms (cmd step) (count step) env st in
      forEachStep ms rest env' st'
  end.

Definition grabSequence : list Step :=
  [ mkStep "D" 3 "Lower shoulder";
    mkStep "E" 2 "Extend elbow";
    mkStep "J" 5 "Close gripper" ].

Definition moveToGrab (env : list Tick) (st : State) : State :=
  let st := addLog "Moving to GRAB position..." Info st in
  let st := snd (forEachStep 150 grabSequence env st) in
  addLog "Reached GRAB position" Success st.

Definition reachSequence : list Step :=
  [ mkStep "C" 4 "Raise shoulder";
    mkStep "E" 3 "Extend elbow";
    mkStep "G" 2 "Raise wrist";
    mkStep "I" 3 "Open gripper" ].

Definition moveToReach (env : list Tick) (st : State) : State :=
  let st := addLog "Moving to REACH position..." Info st in
  let st := snd (forEachStep 150 reachSequence env st) in
  addLog "Reached REACH position" Success st.

Definition resetAll (env : list Tick) (st : State) : State :=
  let st := addLog "Resetting all joints..." Info st in
  moveToHome env st.

(** ** Sessions *)

(** What the user and the device do in a session: an event, or a click on
    one of the four preset buttons, with the ticks of the loop it starts.
    A preset is run to its end before the next action; the events that fall
    within it are those of its ticks. *)
Inductive Action : Type :=
| Happens (e : Event)
| PresetHome (env : list Tick)
| PresetGrab (env : list Tick)
| PresetReach (env : list Tick)
| PresetReset (env : list Tick).

Definition perform (a : Action) (st : State) : State :=
  match a with
  | Happens e => handle e st
  | PresetHome env => moveToHome env st
  | PresetGrab env => moveToGrab env st
  | PresetReach env => moveToReach env st
  | PresetReset env => resetAll env st
  end.

(** The state after a session, from the state at page load (the log lines
    of the [DOMContentLoaded] listener are left out). *)
Definition session (actions : list Action) : State :=
  fold_left (fun s a => perform a s) actions initialState.

(** ** Bounds and the token table *)

(** The limit each joint is clamped against in [updateLocalAngle]. *)
Definition minBound (joint : Joint) : Z :=
  match joint with
  | JShoulder => 120
  | _ => 0
  end.

Definition maxBound (joint : Joint) : Z :=
  match joint with
  | JShoulder => 210
  | _ => 180
  end.

Definition inRange (joint : Joint) (a : JointAngles) : Prop :=
  minBound joint <= getAngle joint a <= maxBound joint.

(** Every joint within its limits. *)
Definition withinBounds (a : JointAngles) : Prop :=
  forall joint, inRange joint a.

(** The same, but with the shoulder allowed down to 90. *)
Definition withinLooseBounds (a : JointAngles) : Prop :=
  forall joint,
    match joint with
    | JShoulder => 90 <= shoulder a <= 210
    | _ => inRange joint a
    end.

(** Two-sided clamping. *)
Definition clamp (x lo hi : Z) : Z := Z.max lo (Z.min x hi).

(** The joint and the signed step of each token, as [commandMap] names
    them. *)
Definition tokenTable : list (string * (Joint * Z)) :=
  [ ("A", (JBase, 10)); ("B", (JBase, -10));
    ("C", (JShoulder, 10)); ("D", (JShoulder, -10));
    ("E", (JElbow, 10)); ("F", (JElbow, -10));
    ("G", (JWrist, 10)); ("H", (JWrist, -10));
    ("I", (JGripper, 10)); ("J", (JGripper, -10)) ].

(** What the [switch] stores: the stepped angle, cut off at the limit on the
    side it moves towards. *)
Definition stepped (joint : Joint) (delta : Z) (a : JointAngles) : Z :=
  if Z.ltb 0 delta then Z.min (getAngle joint a + delta) (maxBound joint)
  else Z.max (getAngle joint a + delta) (minBound joint).

(** All joints at 90, the pose [moveToHome] stores. *)
Definition homeAngles : JointAngles :=
  {| base := 90; shoulder := 90; elbow := 90; wrist := 90; gripper := 90 |}.

(** The session every example starts with: the user connects. *)
Definition connectedState : State :=
  connectDevice (Connected "RoboticArm-BLE") initialState.

(** Does a session click Home or Reset? *)
Definition isHome (a : Action) : bool :=
  match a with
  | PresetHome _ | PresetReset _ => true
  | _ => false
  end.

Definition grabDone : string * LogType := ("Reached GRAB position", Success).
Definition reachDone : string * LogType := ("Reached REACH position", Success).
Definition homeDone : string * LogType := ("Reached HOME position", Success).

(** ** The preset loops, flattened *)

(** The commands a [sequence] array sends, in order. *)
Definition expand (sequence : list Step) : list string :=
  flat_map (fun s => repeat (cmd s) (count s)) sequence.

(** No event arrives while the timers of these ticks are pending. *)
Definition calm (env : list Tick) : Prop :=
  Forall (fun t => meanwhile t = []) env.

(** How the writes of the first [n] iterations settle. *)
Fixpoint settlements (n : nat) (env : list Tick) : list WriteResult :=
  match n with
  | O => []
  | S n' => let (t, env') := nextTick env in settles t :: settlements n' env'
  end.

Definition isAccepted (w : WriteResult) : bool :=
  match w with
  | Accepted => true
  | Rejected _ => false
  end.

(** The commands whose write was accepted. *)
Definition delivered (writes : list (string * WriteResult)) : list string :=
  map fst (filter (fun cw => isAccepted (snd cw)) writes).

(** [updateLocalAngle] as a function of the angles alone. *)
Definition turn (command : string) (a : JointAngles) : JointAngles :=
  jointAngles (updateLocalAngle command
    {| device := None; server := false; service := false;
       rxCharacteristic := false; jointAngles := a;
       console := []; written := [] |}).

Definition turnAll (commands : list string) (a : JointAngles) : JointAngles :=
  fold_left (fun b c => turn c b) commands a.

Definition notConnectedLine : string * LogType :=
  ("Error: Device not connected", Error).

Definition disconnectedLine : string * LogType :=
  ("Disconnected from BLE device", Info).

(** The log line a [sendCommand] call leaves once the guard is passed. *)
Definition sendLine (command : string) (w : WriteResult) : string * LogType :=
  match w with
  | Accepted => ("Sent command: " ++ command, Success)
  | Rejected message => ("Error sending command: " ++ message, Error)
  end.

(** Membership in the token set, as a test. *)
Definition isToken (command : string) : bool :=
  existsb (String.eqb command) tokens.

(** ** Example sessions *)

Definition connects : Action :=
  Happens (ClickConnect (Connected "RoboticArm-BLE")).

(** The user connects and clicks Home; nothing interferes. *)
Definition homeSession : State := session [ connects; PresetHome [] ].


(** The user connects and clicks Grab; the first write is rejected. *)
Definition rejectedGrab : State :=
  moveToGrab [ mkTick (Rejected "GATT operation failed") [] ] connectedState.

(** ** The buttons *)

(** What [updateUIState] writes: the [disabled] property of the Connect
    button, of the Disconnect button, and of every joint and preset
    button.  [connectDevice] and [onDisconnected], the only functions that
    assign [device] and [server], end in [updateConnectionStatus], whose
    last statement is this call: the buttons a listener leaves are those of
    the state it leaves. *)
Record Buttons : Type := mkButtons {
  connectBtn : bool;
  disconnectBtn : bool;
  jointButtons : bool
}.

Definition updateUIState (st : State) : Buttons :=
  let isConnected :=
    match device st with
    | Some _ => server st
    | None => false
    end in
  {| connectBtn := isConnected;
     disconnectBtn := negb isConnected;
     jointButtons := negb isConnected |}.

(** ** Further notions used in the properties *)

(** The handles are obtained one from the other: a characteristic from a
    service, a service from a server, a server from a device. *)
Definition linkChain (st : State) : Prop :=
  (rxCharacteristic st = true -> service st = true) /\
  (service st = true -> server st = true) /\
  (server st = true -> device st <> None).

(** The message of the error that ends a connection attempt, if one does. *)
Definition connectError (r : ConnectResult) : option string :=
  match r with
  | RequestDeviceFailed message => Some message
  | GattConnectFailed _ message => Some message
  | GetServiceFailed _ message => Some message
  | GetCharacteristicFailed _ message => Some message
  | Connected _ => None
  end.

(** The events that concern the connection only. *)
Definition isConnectionEvent (e : Event) : bool :=
  match e with
  | ClickConnect _ | ClickDisconnect _ _ _ | Gattserverdisconnected => true
  | ClickJoint _ _ | KeyPress _ _ => false
  end.

Definition multipleOfTen (a : JointAngles) : Prop :=
  forall joint, (10 | getAngle joint a).

(** The [data-command] of every joint button clicked is one of the ten
    tokens: in an event, in the events of a tick, in an action. *)
Definition eventSendsTokens (e : Event) : bool :=
  match e with
  | ClickJoint command _ => isToken command
  | _ => true
  end.

Definition tickSendsTokens (t : Tick) : bool :=
  forallb eventSendsTokens (meanwhile t).

Definition actionSendsTokens (a : Action) : bool :=
  match a with
  | Happens e => eventSendsTokens e
  | PresetHome env | PresetGrab env | PresetReach env | PresetReset env =>
      forallb tickSendsTokens env
  end.

(** Every write of these ticks is accepted. *)
Definition allAccepted (env : list Tick) : Prop :=
  Forall (fun t => settles t = Accepted) env.

(** The lower-case key of a one-letter token. *)
Definition lowerKey (token : string) : string :=
  match token with
  | String c EmptyString =>
      String (Ascii.ascii_of_nat (Ascii.nat_of_ascii c + 32)) EmptyString
  | _ => token
  end.

(** The angles after Grab, after Reach and after the loop of Home, when
    every write is accepted and nothing else happens. *)
Definition grabPose (a : JointAngles) : JointAngles :=
  {| base := base a;
     shoulder := Z.max (shoulder a - 30) 120;
     elbow := Z.min (elbow a + 20) 180;
     wrist := wrist a;
     gripper := Z.max (gripper a - 50) 0 |}.

Definition reachPose (a : JointAngles) : JointAngles :=
  {| base := base a;
     shoulder := Z.min (shoulder a + 40) 210;
     elbow := Z.min (elbow a + 30) 180;
     wrist := Z.min (wrist a + 20) 180;
     gripper := Z.min (gripper a + 30) 180 |}.

Definition loweredPose (a : JointAngles) : JointAngles :=
  {| base := Z.max (base a - 50) 0;
     shoulder := Z.max (shoulder a - 50) 120;
     elbow := Z.max (elbow a - 50) 0;
     wrist := Z.max (wrist a - 50) 0;
     gripper := Z.max (gripper a - 50) 0 |}.

(** A condition on events, carried over to the events of the ticks of a
    preset and to the actions of a session. *)
Definition ticksSatisfy (okEvent : Event -> Prop) (env : list Tick) : Prop :=
  Forall (fun t => Forall okEvent (meanwhile t)) env.

Definition actionSatisfies (okEvent : Event -> Prop) (a : Action) : Prop :=
  match a with
  | Happens e => okEvent e
  | PresetHome env | PresetGrab env | PresetReach env | PresetReset env =>
      ticksSatisfy okEvent env
  end.

(** The state with some lines logged before all of its own, and the state
    with an empty log. *)
Definition prependLog (lines : list (string * LogType)) (st : State) : State :=
  {| device := device st; server := server st; service := service st;
     rxCharacteristic := rxCharacteristic st; jointAngles := jointAngles st;
     console := lines ++ console st; written := written st |}.

Definition clearLog (st : State) : State :=
  {| device := device st; server := server st; service := service st;
     rxCharacteristic := rxCharacteristic st; jointAngles := jointAngles st;
     console := []; written := written st |}.

(** * Proofs *)

(** ** What each function leaves alone *)

Local Open Scope list_scope.

Lemma jointAngles_addLog message type st :
  jointAngles (addLog message type st) = jointAngles st.
Proof. reflexivity. Qed.

Lemma jointAngles_writeValue data w st :
  jointAngles (writeValue data w st) = jointAngles st.
Proof. reflexivity. Qed.

Lemma jointAngles_updateConnectionStatus connected st :
  jointAngles (updateConnectionStatus connected st) = jointAngles st.
Proof. destruct connected; reflexivity. Qed.

Lemma getAngle_setAngle_same joint angle a :
  getAngle joint (setAngle joint angle a) = angle.
Proof. destruct joint; reflexivity. Qed.

Lemma getAngle_setAngle_other joint other angle a :
  other <> joint -> getAngle other (setAngle joint angle a) = getAngle other a.
Proof. destruct joint, other; intros H; try reflexivity; contradiction. Qed.

(** A command that is none of the ten tokens falls through the [switch]. *)
Lemma updateLocalAngle_unknown command st :
  ~ In command tokens -> updateLocalAngle command st = st.
Proof.
  intros Hnot. unfold updateLocalAngle.
  repeat match goal with
         | |- context [String.eqb command ?t] =>
             destruct (String.eqb_spec command t) as [-> | _];
             [ exfalso; apply Hnot; simpl; tauto | ]
         end.
  reflexivity.
Qed.

(** The token table lists exactly the keys of [commandMap]. *)
Lemma tokenTable_tokens : map fst tokenTable = tokens.
Proof. reflexivity. Qed.

(** Each token runs the case of its joint. *)
Lemma updateLocalAngle_token token joint delta st :
  In (token, (joint, delta)) tokenTable ->
  updateLocalAngle token st =
  updateAngleDisplay joint (stepped joint delta (jointAngles st)) st.
Proof.
  intros Hin. simpl in Hin.
  repeat (destruct Hin as [Hin | Hin];
          [ injection Hin as <- <- <-; reflexivity | ]).
  contradiction.
Qed.

(** Within the limits, cutting off on one side is clamping. *)
Lemma stepped_clamp joint delta a :
  delta = 10 \/ delta = -10 ->
  inRange joint a ->
  stepped joint delta a =
  clamp (getAngle joint a + delta) (minBound joint) (maxBound joint).
Proof.
  unfold inRange, stepped, clamp.
  intros [-> | ->] H; simpl Z.ltb; cbv iota;
    destruct joint; simpl in *; lia.
Qed.

Lemma tokenTable_delta token joint delta :
  In (token, (joint, delta)) tokenTable -> delta = 10 \/ delta = -10.
Proof.
  simpl. intros H.
  repeat (destruct H as [H | H]; [ injection H as _ _ <-; tauto | ]).
  contradiction.
Qed.

(** [n] presses of the base-decrement token take 10 degrees each until 0. *)
Lemma base_after_decrements n st :
  0 <= base (jointAngles st) ->
  base (jointAngles (Nat.iter n (updateLocalAngle "B") st)) =
  Z.max (base (jointAngles st) - 10 * Z.of_nat n) 0.
Proof.
  intros Hpos. induction n as [| n IH].
  - simpl. lia.
  - rewrite Nat.iter_succ. unfold updateLocalAngle at 1. simpl.
    rewrite IH. lia.
Qed.

(** ** Properties of the angles kept by everything but the Home pose *)

Section Preservation.

Variable P : JointAngles -> Prop.

Hypothesis P_updateLocalAngle :
  forall command st,
    P (jointAngles st) -> P (jointAngles (updateLocalAngle command st)).

Lemma P_sendCommand w command st :
  P (jointAngles st) -> P (jointAngles (sendCommand w command st)).
Proof.
  intros H. unfold sendCommand.
  destruct (linkReady st); simpl negb; cbv iota; [ | exact H ].
  destruct w as [| message]; [ | exact H ].
  apply P_updateLocalAngle. exact H.
Qed.

Lemma P_keydown w key st :
  P (jointAngles st) -> P (jointAngles (keydown w key st)).
Proof.
  intros H. unfold keydown.
  destruct (negb (linkReady st)); [ exact H | ].
  destruct (lookup key keyMap); [ apply P_sendCommand | ]; exact H.
Qed.

Lemma P_connectDevice r st :
  P (jointAngles st) -> P (jointAngles (connectDevice r st)).
Proof. intros H. destruct r; exact H. Qed.

Lemma P_disconnectDevice gattConnected listenerRan thrown st :
  P (jointAngles st) ->
  P (jointAngles (disconnectDevice gattConnected listenerRan thrown st)).
Proof.
  intros H. unfold disconnectDevice.
  destruct (device st), gattConnected, listenerRan, thrown; exact H.
Qed.

Lemma P_handle e st :
  P (jointAngles st) -> P (jointAngles (handle e st)).
Proof.
  intros H. destruct e; simpl.
  - now apply P_connectDevice.
  - now apply P_disconnectDevice.
  - exact H.
  - now apply P_sendCommand.
  - now apply P_keydown.
Qed.

Lemma P_handleAll events st :
  P (jointAngles st) -> P (jointAngles (handleAll events st)).
Proof.
  revert st. induction events as [| e events IH]; intros st H.
  - exact H.
  - apply IH. now apply P_handle.
Qed.

Lemma P_sendAndWait ms command t st :
  P (jointAngles st) -> P (jointAngles (sendAndWait ms command t st)).
Proof. intros H. apply P_handleAll. now apply P_sendCommand. Qed.

Lemma P_forEachCommand ms commands env st :
  P (jointAngles st) ->
  P (jointAngles (snd (forEachCommand ms commands env st))).
Proof.
  revert env st. induction commands as [| c commands IH]; intros env st H.
  - exact H.
  - simpl. destruct (nextTick env) as [t env'].
    apply IH. now apply P_sendAndWait.
Qed.

Lemma P_repeatCommand ms command n env st :
  P (jointAngles st) ->
  P (jointAngles (snd (repeatCommand ms command n env st))).
Proof.
  revert env st. induction n as [| n IH]; intros env st H.
  - exact H.
  - simpl. destruct (nextTick env) as [t env'].
    apply IH. now apply P_sendAndWait.
Qed.

Lemma P_forEachStep ms sequence env st :
  P (jointAngles st) ->
  P (jointAngles (snd (forEachStep ms sequence env st))).
Proof.
  revert env st. induction sequence as [| s sequence IH]; intros env st H.
  - exact H.
  - simpl.
    pose proof (P_repeatCommand ms (cmd s) (count s) env st H) as Hr.
    destruct (repeatCommand ms (cmd s) (count s) env st) as [env' st'].
    apply IH. exact Hr.
Qed.

Lemma P_moveToGrab env st :
  P (jointAngles st) -> P (jointAngles (moveToGrab env st)).
Proof.
  intros H. unfold moveToGrab. rewrite jointAngles_addLog.
  now apply P_forEachStep.
Qed.

Lemma P_moveToReach env st :
  P (jointAngles st) -> P (jointAngles (moveToReach env st)).
Proof.
  intros H. unfold moveToReach. rewrite jointAngles_addLog.
  now apply P_forEachStep.
Qed.

End Preservation.

(** The Home pose is stored whatever the loop before it did. *)
Lemma jointAngles_moveToHome env st :
  jointAngles (moveToHome env st) = homeAngles.
Proof. reflexivity. Qed.

Lemma withinBounds_updateLocalAngle command st :
  withinBounds (jointAngles st) ->
  withinBounds (jointAngles (updateLocalAngle command st)).
Proof.
  intros H.
  pose proof (H JBase) as Hb. pose proof (H JShoulder) as Hs.
  pose proof (H JElbow) as He. pose proof (H JWrist) as Hw.
  pose proof (H JGripper) as Hg.
  unfold inRange in Hb, Hs, He, Hw, Hg. simpl in Hb, Hs, He, Hw, Hg.
  unfold updateLocalAngle.
  repeat match goal with
         | |- context [String.eqb command ?t] =>
             destruct (String.eqb command t);
             [ intros joint; unfold inRange; destruct joint; simpl; lia | ]
         end.
  exact H.
Qed.

Lemma withinLooseBounds_updateLocalAngle command st :
  withinLooseBounds (jointAngles st) ->
  withinLooseBounds (jointAngles (updateLocalAngle command st)).
Proof.
  intros H.
  pose proof (H JBase) as Hb. pose proof (H JShoulder) as Hs.
  pose proof (H JElbow) as He. pose proof (H JWrist) as Hw.
  pose proof (H JGripper) as Hg.
  unfold inRange in Hb, Hs, He, Hw, Hg. simpl in Hb, Hs, He, Hw, Hg.
  unfold updateLocalAngle.
  repeat match goal with
         | |- context [String.eqb command ?t] =>
             destruct (String.eqb command t);
             [ intros joint; unfold inRange; destruct joint; simpl; lia | ]
         end.
  exact H.
Qed.

Lemma withinLooseBounds_homeAngles : withinLooseBounds homeAngles.
Proof. intros joint; unfold inRange; destruct joint; simpl; lia. Qed.

Lemma withinBounds_loose a : withinBounds a -> withinLooseBounds a.
Proof.
  intros H joint. specialize (H joint). unfold inRange in *.
  destruct joint; simpl in *; lia.
Qed.

Lemma withinBounds_initialAngles : withinBounds initialAngles.
Proof. intros joint; unfold inRange; destruct joint; simpl; lia. Qed.

Lemma session_snoc actions a :
  session (actions ++ [a]) = perform a (session actions).
Proof. unfold session. rewrite fold_left_app. reflexivity. Qed.

Lemma withinLooseBounds_perform a st :
  withinLooseBounds (jointAngles st) ->
  withinLooseBounds (jointAngles (perform a st)).
Proof.
  intros H. destruct a as [e | env | env | env | env]; cbn [perform].
  - apply P_handle; [ apply withinLooseBounds_updateLocalAngle | exact H ].
  - rewrite jointAngles_moveToHome. apply withinLooseBounds_homeAngles.
  - apply P_moveToGrab; [ apply withinLooseBounds_updateLocalAngle | exact H ].
  - apply P_moveToReach; [ apply withinLooseBounds_updateLocalAngle | exact H ].
  - unfold resetAll. rewrite jointAngles_moveToHome.
    apply withinLooseBounds_homeAngles.
Qed.

Lemma withinBounds_perform a st :
  isHome a = false ->
  withinBounds (jointAngles st) ->
  withinBounds (jointAngles (perform a st)).
Proof.
  intros Hh H. destruct a as [e | env | env | env | env]; cbn [perform];
    try discriminate Hh.
  - apply P_handle; [ apply withinBounds_updateLocalAngle | exact H ].
  - apply P_moveToGrab; [ apply withinBounds_updateLocalAngle | exact H ].
  - apply P_moveToReach; [ apply withinBounds_updateLocalAngle | exact H ].
Qed.

Lemma jointAngles_updateLocalAngle command st :
  jointAngles (updateLocalAngle command st) = turn command (jointAngles st).
Proof.
  unfold turn, updateLocalAngle.
  repeat match goal with
         | |- context [String.eqb command ?t] =>
             destruct (String.eqb command t); [ reflexivity | ]
         end.
  reflexivity.
Qed.

(** [updateLocalAngle] touches nothing but the angles. *)
Lemma updateLocalAngle_frame command st :
  device (updateLocalAngle command st) = device st /\
  rxCharacteristic (updateLocalAngle command st) = rxCharacteristic st /\
  console (updateLocalAngle command st) = console st /\
  written (updateLocalAngle command st) = written st.
Proof.
  unfold updateLocalAngle.
  repeat match goal with
         | |- context [String.eqb command ?t] =>
             destruct (String.eqb command t); [ repeat split | ]
         end.
  repeat split.
Qed.

Lemma linkReady_updateLocalAngle command st :
  linkReady (updateLocalAngle command st) = linkReady st.
Proof.
  unfold linkReady.
  destruct (updateLocalAngle_frame command st) as (-> & -> & _).
  reflexivity.
Qed.

Lemma sendCommand_notReady w command st :
  linkReady st = false ->
  sendCommand w command st = addLog "Error: Device not connected" Error st.
Proof. intros H. unfold sendCommand. rewrite H. reflexivity. Qed.

Lemma sendCommand_ready w command st :
  linkReady st = true ->
  written (sendCommand w command st) = written st ++ [(command, w)] /\
  console (sendCommand w command st) = console st ++ [sendLine command w] /\
  jointAngles (sendCommand w command st) =
    (if isAccepted w then turn command (jointAngles st) else jointAngles st) /\
  linkReady (sendCommand w command st) = true.
Proof.
  intros H. unfold sendCommand. rewrite H. simpl negb.
  destruct w as [| message]; cbv beta iota zeta.
  - rewrite jointAngles_updateLocalAngle, linkReady_updateLocalAngle.
    destruct (updateLocalAngle_frame command
      (addLog ("Sent command: " ++ command)%string Success
         (writeValue command Accepted st))) as (_ & _ & -> & ->).
    repeat split. exact H.
  - repeat split. exact H.
Qed.

Lemma nextTick_calm env t env' :
  calm env -> nextTick env = (t, env') -> meanwhile t = [] /\ calm env'.
Proof.
  intros Hc. destruct env as [| t0 env0]; simpl; intros [= <- <-].
  - split; [ reflexivity | constructor ].
  - inversion Hc; subst. split; assumption.
Qed.

Lemma forEachCommand_app ms l1 l2 env st :
  forEachCommand ms (l1 ++ l2) env st =
  let (env', st') := forEachCommand ms l1 env st in
  forEachCommand ms l2 env' st'.
Proof.
  revert env st. induction l1 as [| c l1 IH]; intros env st; simpl.
  - reflexivity.
  - destruct (nextTick env) as [t env']. apply IH.
Qed.

Lemma repeatCommand_flat ms command n env st :
  repeatCommand ms command n env st =
  forEachCommand ms (repeat command n) env st.
Proof.
  revert env st. induction n as [| n IH]; intros env st; simpl.
  - reflexivity.
  - destruct (nextTick env) as [t env']. apply IH.
Qed.

(** The nested loops of Grab and Reach send the flattened sequence. *)
Lemma forEachStep_flat ms sequence env st :
  forEachStep ms sequence env st = forEachCommand ms (expand sequence) env st.
Proof.
  revert env st. induction sequence as [| s sequence IH]; intros env st.
  - reflexivity.
  - unfold expand. simpl. fold (expand sequence).
    rewrite forEachCommand_app, repeatCommand_flat.
    destruct (forEachCommand ms (repeat (cmd s) (count s)) env st) as [env' st'].
    apply IH.
Qed.

(** With the link up and no event in between, a loop calls [writeValue]
    for every command and turns the joints of those that were accepted. *)
Lemma forEachCommand_ready ms commands env st :
  linkReady st = true ->
  calm env ->
  let writes := combine commands (settlements (length commands) env) in
  let st' := snd (forEachCommand ms commands env st) in
  linkReady st' = true /\
  written st' = written st ++ writes /\
  console st' = console st ++ map (fun cw => sendLine (fst cw) (snd cw)) writes /\
  jointAngles st' = turnAll (delivered writes) (jointAngles st).
Proof.
  revert env st. induction commands as [| c commands IH]; intros env st Hr Hc.
  - simpl. rewrite !app_nil_r. auto.
  - simpl. destruct (nextTick env) as [t env'] eqn:Hn.
    destruct (nextTick_calm _ _ _ Hc Hn) as [Hm Hc'].
    unfold sendAndWait, sleep. rewrite Hm. simpl handleAll.
    destruct (sendCommand_ready (settles t) c st Hr) as (Hw & Hl & Ha & Hr').
    specialize (IH env' (sendCommand (settles t) c st) Hr' Hc').
    simpl in IH. destruct IH as (IH1 & IH2 & IH3 & IH4).
    split; [ exact IH1 | ].
    split; [ rewrite IH2, Hw, <- app_assoc; reflexivity | ].
    split; [ rewrite IH3, Hl, <- app_assoc; reflexivity | ].
    rewrite IH4, Ha. unfold delivered. simpl.
    destruct (isAccepted (settles t)); reflexivity.
Qed.


Lemma last_addLog message type st d :
  last (console (addLog message type st)) d = (message, type).
Proof. simpl. apply last_last. Qed.


Lemma isToken_false command : isToken command = false -> ~ In command tokens.
Proof.
  unfold isToken. intros H Hin.
  assert (existsb (String.eqb command) tokens = true) as Ht.
  { apply existsb_exists. exists command. split; [ exact Hin | apply String.eqb_refl ]. }
  congruence.
Qed.

Lemma lookup_keyMap_token key command :
  lookup key keyMap = Some command -> isToken command = true.
Proof.
  unfold keyMap. simpl.
  repeat match goal with
         | |- context [String.eqb key ?k] => destruct (String.eqb key k)
         end;
    intros [= <-]; reflexivity.
Qed.

(** ** The claims *)

(** C1, as amended.  In every session (commands from buttons and keys,
    connections and disconnections, presets with any settlement of their
    writes and any events during their timers) the base, the elbow, the
    wrist and the gripper stay within 0..180 and the shoulder within
    90..210; the shoulder stays within 120..210 as long as neither Home nor
    Reset was clicked. *)
Theorem session_angles_bounded actions :
  withinLooseBounds (jointAngles (session actions)) /\
  (existsb isHome actions = false ->
   withinBounds (jointAngles (session actions))).
Proof.
  induction actions as [| a actions [IHl IHs]] using rev_ind.
  - split; [ apply withinBounds_loose | intros _ ];
      exact withinBounds_initialAngles.
  - rewrite session_snoc. split.
    + now apply withinLooseBounds_perform.
    + rewrite existsb_app. simpl. rewrite orb_false_r.
      intros H. apply orb_false_iff in H as [H1 H2].
      apply withinBounds_perform; auto.
Qed.

Lemma session_angles_bounded_witness :
  existsb isHome
    [ connects; Happens (ClickJoint "D" Accepted);
      Happens (ClickJoint "D" Accepted); PresetReach [] ] = false /\
  withinBounds (jointAngles (session
    [ connects; Happens (ClickJoint "D" Accepted);
      Happens (ClickJoint "D" Accepted); PresetReach [] ])).
Proof.
  split.
  - reflexivity.
  - apply (proj2 (session_angles_bounded
      [ connects; Happens (ClickJoint "D" Accepted);
        Happens (ClickJoint "D" Accepted); PresetReach [] ])).
    reflexivity.
Defined.

(** C1, as stated, fails: after connecting and clicking Home the shoulder
    reads 90, below its minimum of 120. *)
Lemma home_leaves_shoulder_below_minimum :
  getAngle JShoulder (jointAngles homeSession) = 90 /\
  minBound JShoulder = 120 /\
  ~ inRange JShoulder (jointAngles homeSession) /\
  ~ withinBounds (jointAngles homeSession).
Proof.
  assert (~ inRange JShoulder (jointAngles homeSession)) as Hout.
  { unfold inRange. vm_compute. intros [H _]. apply H. reflexivity. }
  repeat split; try reflexivity; try exact Hout.
  intros H. exact (Hout (H JShoulder)).
Qed.

(** C2.  Whatever the state before, whatever the writes of its 25 commands
    and the events during its timers did, [moveToHome] (and [resetAll],
    which calls it) ends with all five joints at exactly 90: the pose is
    stored after the loop, over whatever the loop computed. *)
Theorem moveToHome_stores_home_pose env st :
  jointAngles (moveToHome env st) =
    {| base := 90; shoulder := 90; elbow := 90; wrist := 90; gripper := 90 |} /\
  jointAngles (resetAll env st) =
    {| base := 90; shoulder := 90; elbow := 90; wrist := 90; gripper := 90 |} /\
  last (console (moveToHome env st)) ("", Info) = homeDone.
Proof.
  split; [ reflexivity | ]. split; [ reflexivity | ].
  unfold moveToHome. apply last_addLog.
Qed.

(** The loop of Home alone, from the connected initial state with every
    write accepted, does not end at that pose. *)
Example home_loop_alone :
  jointAngles (snd (forEachCommand 100 homeCommands [] connectedState)) =
  {| base := 40; shoulder := 120; elbow := 40; wrist := 40; gripper := 40 |}.
Proof. reflexivity. Qed.




(** C4, as amended.  [sendCommand] does not look at the command: with the
    link up it writes whatever it is given and logs the outcome of the
    write.  Only the key listener filters: a key outside [keyMap] changes
    nothing (nothing is written and nothing logged), and a key of [keyMap]
    sends one of the ten tokens. *)
Theorem sendCommand_writes_any_command w command st :
  linkReady st = true ->
  written (sendCommand w command st) = written st ++ [(command, w)] /\
  console (sendCommand w command st) = console st ++ [sendLine command w] /\
  (forall key w', lookup key keyMap = None -> keydown w' key st = st) /\
  (forall key token, lookup key keyMap = Some token -> isToken token = true).
Proof.
  intros Hr.
  destruct (sendCommand_ready w command st Hr) as (Hw & Hl & _).
  split; [ exact Hw | ]. split; [ exact Hl | ]. split.
  - intros key w' Hk. unfold keydown. rewrite Hr, Hk. reflexivity.
  - apply lookup_keyMap_token.
Qed.

Lemma sendCommand_writes_any_command_witness :
  linkReady connectedState = true /\
  written (sendCommand Accepted "Z" connectedState) =
    written connectedState ++ [("Z", Accepted)] /\
  keydown Accepted "z" connectedState = connectedState.
Proof.
  split; [ reflexivity | ].
  destruct (sendCommand_writes_any_command Accepted "Z" connectedState eq_refl)
    as (Hw & _ & Hk & _).
  split; [ exact Hw | ].
  apply Hk. reflexivity.
Defined.

(** C4, as stated, fails: with the link up, the command Z is written to
    the characteristic and logged as sent; no error is logged. *)
Lemma unknown_token_is_written :
  isToken "Z" = false /\
  written connectedState = [] /\
  written (sendCommand Accepted "Z" connectedState) = [("Z", Accepted)] /\
  written (sendCommand Accepted "Z" connectedState) <> written connectedState /\
  last (console (sendCommand Accepted "Z" connectedState)) ("", Info) =
    ("Sent command: Z", Success) /\
  ~ In Error (map snd (console (sendCommand Accepted "Z" connectedState))).
Proof.
  repeat split; try reflexivity.
  - vm_compute. discriminate.
  - vm_compute. intuition discriminate.
Qed.

(** C5, as amended.  When the write is rejected, [sendCommand] leaves every
    angle as it was and reports the error of the write in the log, with
    the severity of an error.  The error does not reach the caller: the
    call ends normally, as it does after an accepted write. *)
Theorem sendCommand_rejected_keeps_angles command message st :
  linkReady st = true ->
  jointAngles (sendCommand (Rejected message) command st) = jointAngles st /\
  console (sendCommand (Rejected message) command st) =
    console st ++ [(("Error sending command: " ++ message)%string, Error)] /\
  written (sendCommand (Rejected message) command st) =
    written st ++ [(command, Rejected message)] /\
  sendCommandSettles (Rejected message) command st = Resolves /\
  sendCommandSettles (Rejected message) command st =
    sendCommandSettles Accepted command st.
Proof.
  intros Hr. unfold sendCommand, sendCommandSettles. rewrite Hr. repeat split.
Qed.

Lemma sendCommand_rejected_keeps_angles_witness :
  linkReady connectedState = true /\
  base (jointAngles connectedState) = 90 /\
  jointAngles (sendCommand (Rejected "GATT operation failed") "A"
                 connectedState) = jointAngles connectedState.
Proof.
  split; [ reflexivity | ]. split; [ reflexivity | ].
  exact (proj1 (sendCommand_rejected_keeps_angles "A" "GATT operation failed"
                  connectedState eq_refl)).
Defined.

(** C5, as stated, fails: with the link up and base at 90, the write of A
    is rejected; the call of [sendCommand] does not throw the error to its
    caller but ends as after an accepted write, the error being only
    logged.  The base still reads 90. *)
Lemma rejected_write_not_thrown_to_caller :
  linkReady connectedState = true /\
  sendCommandSettles (Rejected "GATT operation failed") "A" connectedState =
    Resolves /\
  sendCommandSettles (Rejected "GATT operation failed") "A" connectedState <>
    Throws "GATT operation failed" /\
  sendCommandSettles (Rejected "GATT operation failed") "A" connectedState =
    sendCommandSettles Accepted "A" connectedState /\
  last (console (sendCommand (Rejected "GATT operation failed") "A"
                   connectedState)) ("", Info) =
    ("Error sending command: GATT operation failed", Error) /\
  base (jointAngles (sendCommand (Rejected "GATT operation failed") "A"
                       connectedState)) = 90.
Proof.
  repeat split; try reflexivity.
  vm_compute. discriminate.
Qed.

(** C6, as amended.  A failed dispatch does not end a preset: Grab, Reach
    and Home each log that they reached their position, whatever happened
    to their commands.  With the link up and no event during the timers,
    Grab calls [writeValue] for all 10 of its commands, Reach for all 12
    and Home for all 25, however the writes settle.  Nothing is rolled
    back: after Grab and Reach the angles are those of the commands whose
    write was accepted, applied in order. *)
Theorem presets_run_to_the_end env st :
  (last (console (moveToGrab env st)) ("", Info) = grabDone /\
   last (console (moveToReach env st)) ("", Info) = reachDone /\
   last (console (moveToHome env st)) ("", Info) = homeDone) /\
  (linkReady st = true ->
   calm env ->
   (written (moveToGrab env st) =
      written st ++ combine (expand grabSequence) (settlements 10 env) /\
    jointAngles (moveToGrab env st) =
      turnAll (delivered (combine (expand grabSequence) (settlements 10 env)))
        (jointAngles st)) /\
   (written (moveToReach env st) =
      written st ++ combine (expand reachSequence) (settlements 12 env) /\
    jointAngles (moveToReach env st) =
      turnAll (delivered (combine (expand reachSequence) (settlements 12 env)))
        (jointAngles st)) /\
   written (moveToHome env st) =
     written st ++ combine homeCommands (settlements 25 env)).
Proof.
  split.
  - split; [ | split ]; apply last_addLog.
  - intros Hr Hc. split; [ | split ].
    + unfold moveToGrab. rewrite forEachStep_flat.
      destruct (forEachCommand_ready 150 (expand grabSequence) env
                  (addLog "Moving to GRAB position..." Info st) Hr Hc)
        as (_ & Hw & _ & Ha).
      split; [ exact Hw | exact Ha ].
    + unfold moveToReach. rewrite forEachStep_flat.
      destruct (forEachCommand_ready 150 (expand reachSequence) env
                  (addLog "Moving to REACH position..." Info st) Hr Hc)
        as (_ & Hw & _ & Ha).
      split; [ exact Hw | exact Ha ].
    + destruct (forEachCommand_ready 100 homeCommands env
                  (addLog "Moving to HOME position..." Info st) Hr Hc)
        as (_ & Hw & _ & _).
      exact Hw.
Qed.

Lemma presets_run_to_the_end_witness :
  linkReady connectedState = true /\
  calm [ quiet; mkTick (Rejected "GATT operation failed") [] ] /\
  written (moveToGrab [ quiet; mkTick (Rejected "GATT operation failed") [] ]
             connectedState) =
    written connectedState ++
    combine (expand grabSequence)
      (settlements 10 [ quiet; mkTick (Rejected "GATT operation failed") [] ]).
Proof.
  assert (calm [ quiet; mkTick (Rejected "GATT operation failed") [] ]) as Hc.
  { repeat constructor. }
  split; [ reflexivity | ]. split; [ exact Hc | ].
  exact (proj1 (proj1 (proj2 (presets_run_to_the_end
    [ quiet; mkTick (Rejected "GATT operation failed") [] ]
    connectedState) eq_refl Hc))).
Defined.

(** C6, as stated, fails: the first write of a Grab is rejected; the nine
    commands after it are still written, and Grab reports that it reached
    its position. *)
Lemma grab_continues_after_rejected_write :
  written rejectedGrab =
    [ ("D", Rejected "GATT operation failed"); ("D", Accepted); ("D", Accepted);
      ("E", Accepted); ("E", Accepted);
      ("J", Accepted); ("J", Accepted); ("J", Accepted); ("J", Accepted);
      ("J", Accepted) ] /\
  jointAngles rejectedGrab =
    {| base := 90; shoulder := 120; elbow := 110; wrist := 90; gripper := 40 |} /\
  last (console rejectedGrab) ("", Info) = grabDone.
Proof. repeat split; reflexivity. Qed.



(** C8, as amended.  Each of the ten tokens changes the joint of its row
    and no other, storing the angle stepped by +10 or -10 and cut off at
    the maximum (for +10) or at the minimum (for -10) of that joint.  When
    the angle was within the joint's limits, that is the stepped angle
    clamped to the limits. *)
Theorem updateLocalAngle_steps_one_joint token joint delta st :
  In (token, (joint, delta)) tokenTable ->
  updateLocalAngle token st =
    updateAngleDisplay joint (stepped joint delta (jointAngles st)) st /\
  getAngle joint (jointAngles (updateLocalAngle token st)) =
    stepped joint delta (jointAngles st) /\
  (forall other, other <> joint ->
     getAngle other (jointAngles (updateLocalAngle token st)) =
     getAngle other (jointAngles st)) /\
  (inRange joint (jointAngles st) ->
     getAngle joint (jointAngles (updateLocalAngle token st)) =
     clamp (getAngle joint (jointAngles st) + delta)
       (minBound joint) (maxBound joint)).
Proof.
  intros Hin.
  rewrite (updateLocalAngle_token token joint delta st Hin).
  split; [ reflexivity | ].
  simpl jointAngles. rewrite getAngle_setAngle_same.
  split; [ reflexivity | ]. split.
  - intros other Ho. now apply getAngle_setAngle_other.
  - apply stepped_clamp. exact (tokenTable_delta token joint delta Hin).
Qed.

Lemma updateLocalAngle_steps_one_joint_witness :
  In ("D", (JShoulder, -10)) tokenTable /\
  inRange JShoulder (jointAngles initialState) /\
  getAngle JShoulder (jointAngles (updateLocalAngle "D" initialState)) =
    clamp (getAngle JShoulder (jointAngles initialState) + -10)
      (minBound JShoulder) (maxBound JShoulder).
Proof.
  assert (In ("D", (JShoulder, -10)) tokenTable) as Hin.
  { simpl. do 3 right. left. reflexivity. }
  assert (inRange JShoulder (jointAngles initialState)) as Hrange.
  { unfold inRange. simpl. lia. }
  split; [ exact Hin | ]. split; [ exact Hrange | ].
  destruct (updateLocalAngle_steps_one_joint "D" JShoulder (-10) initialState Hin)
    as (_ & _ & _ & Hclamp).
  exact (Hclamp Hrange).
Defined.

(** C8, as stated, fails: after Home the shoulder reads 90, and the
    shoulder-increment token stores 100, not 100 clamped to 120..210. *)
Lemma increment_below_minimum_is_not_clamped :
  In ("C", (JShoulder, 10)) tokenTable /\
  getAngle JShoulder (jointAngles (updateLocalAngle "C" homeSession)) = 100 /\
  clamp (getAngle JShoulder (jointAngles homeSession) + 10)
    (minBound JShoulder) (maxBound JShoulder) = 120 /\
  getAngle JShoulder (jointAngles (updateLocalAngle "C" homeSession)) <>
  clamp (getAngle JShoulder (jointAngles homeSession) + 10)
    (minBound JShoulder) (maxBound JShoulder).
Proof.
  split; [ simpl; tauto | ]. split; [ reflexivity | ].
  split; [ reflexivity | ]. vm_compute. discriminate.
Qed.

(** C9.  From a base angle of 90, a hundred applications of the
    base-decrement token leave the base at exactly 0; it is never negative
    on the way, and any number of further applications keep it at 0. *)
Theorem base_decrements_stop_at_zero st :
  base (jointAngles st) = 90 ->
  base (jointAngles (Nat.iter 100 (updateLocalAngle "B") st)) = 0 /\
  (forall k, 0 <= base (jointAngles (Nat.iter k (updateLocalAngle "B") st))) /\
  (forall n,
     base (jointAngles (Nat.iter n (updateLocalAngle "B")
                          (Nat.iter 100 (updateLocalAngle "B") st))) = 0).
Proof.
  intros H90.
  assert (0 <= base (jointAngles st)) as Hpos by lia.
  assert (base (jointAngles (Nat.iter 100 (updateLocalAngle "B") st)) = 0) as H0.
  { rewrite (base_after_decrements 100 st Hpos), H90. reflexivity. }
  split; [ exact H0 | ]. split.
  - intros k. rewrite (base_after_decrements k st Hpos). lia.
  - intros n. rewrite base_after_decrements; rewrite H0; lia.
Qed.

Lemma base_decrements_stop_at_zero_witness :
  base (jointAngles initialState) = 90 /\
  base (jointAngles (Nat.iter 100 (updateLocalAngle "B") initialState)) = 0.
Proof.
  split; [ reflexivity | ].
  exact (proj1 (base_decrements_stop_at_zero initialState eq_refl)).
Defined.

(** C10.  A command that is none of the ten tokens leaves the state, and so
    every angle, as it is in [updateLocalAngle]; sent with the link up and
    the write accepted, it is still written to the characteristic and
    logged as sent, before that update without effect. *)
Theorem unknown_command_written_not_applied command st :
  isToken command = false ->
  updateLocalAngle command st = st /\
  (linkReady st = true ->
   sendCommand Accepted command st =
     updateLocalAngle command
       (addLog ("Sent command: " ++ command)%string Success
          (writeValue command Accepted st)) /\
   written (sendCommand Accepted command st) =
     written st ++ [(command, Accepted)] /\
   console (sendCommand Accepted command st) =
     console st ++ [(("Sent command: " ++ command)%string, Success)] /\
   jointAngles (sendCommand Accepted command st) = jointAngles st).
Proof.
  intros Hn. apply isToken_false in Hn.
  split; [ exact (updateLocalAngle_unknown command st Hn) | ].
  intros Hr.
  assert (sendCommand Accepted command st =
          updateLocalAngle command
            (addLog ("Sent command: " ++ command)%string Success
               (writeValue command Accepted st))) as Heq.
  { unfold sendCommand. rewrite Hr. reflexivity. }
  split; [ exact Heq | ].
  rewrite Heq, (updateLocalAngle_unknown command _ Hn). repeat split.
Qed.

Lemma unknown_command_written_not_applied_witness :
  isToken "Z" = false /\
  linkReady connectedState = true /\
  written (sendCommand Accepted "Z" connectedState) =
    written connectedState ++ [("Z", Accepted)] /\
  jointAngles (sendCommand Accepted "Z" connectedState) =
    jointAngles connectedState.
Proof.
  split; [ reflexivity | ]. split; [ reflexivity | ].
  destruct (proj2 (unknown_command_written_not_applied "Z" connectedState eq_refl)
              eq_refl) as (_ & Hw & _ & Ha).
  split; [ exact Hw | exact Ha ].
Defined.

(** ** Properties kept by whole sessions *)

Section Invariant.

Variable Q : State -> Prop.
Variable okCommand : string -> Prop.
Variable okEvent : Event -> Prop.

Hypothesis Q_sendCommand :
  forall w command st, okCommand command -> Q st -> Q (sendCommand w command st).
Hypothesis Q_handle :
  forall e st, okEvent e -> Q st -> Q (handle e st).
Hypothesis Q_addLog :
  forall message type st, Q st -> Q (addLog message type st).
Hypothesis Q_home :
  forall joint st, Q st -> Q (updateAngleDisplay joint 90 st).
Hypothesis okCommand_token :
  forall command, isToken command = true -> okCommand command.

Lemma Q_handleAll events st :
  Forall okEvent events -> Q st -> Q (handleAll events st).
Proof.
  intros He. revert st. induction He as [| e events He _ IH]; intros st H.
  - exact H.
  - apply IH. now apply Q_handle.
Qed.

Lemma nextTick_satisfy env t env' :
  ticksSatisfy okEvent env ->
  nextTick env = (t, env') ->
  Forall okEvent (meanwhile t) /\ ticksSatisfy okEvent env'.
Proof.
  intros Hs. destruct env as [| t0 env0]; simpl; intros [= <- <-].
  - split; constructor.
  - inversion Hs; subst. split; assumption.
Qed.

Lemma Q_forEachCommand ms commands env st :
  Forall okCommand commands ->
  ticksSatisfy okEvent env ->
  Q st ->
  Q (snd (forEachCommand ms commands env st)).
Proof.
  intros Hc. revert env st.
  induction Hc as [| c commands Hc _ IH]; intros env st Hs H.
  - exact H.
  - simpl. destruct (nextTick env) as [t env'] eqn:Hn.
    destruct (nextTick_satisfy _ _ _ Hs Hn) as [Ht Hs'].
    apply IH; [ exact Hs' | ].
    unfold sendAndWait, sleep. apply Q_handleAll; [ exact Ht | ].
    now apply Q_sendCommand.
Qed.

Lemma okCommand_tokens commands :
  forallb isToken commands = true -> Forall okCommand commands.
Proof.
  intros H. apply Forall_forall. intros c Hin.
  apply okCommand_token.
  rewrite forallb_forall in H. now apply H.
Qed.

Lemma Q_moveToHome env st :
  ticksSatisfy okEvent env -> Q st -> Q (moveToHome env st).
Proof.
  intros Hs H. unfold moveToHome.
  apply Q_addLog. do 5 apply Q_home.
  apply Q_forEachCommand; [ now apply okCommand_tokens | exact Hs | ].
  now apply Q_addLog.
Qed.

Lemma Q_moveToGrab env st :
  ticksSatisfy okEvent env -> Q st -> Q (moveToGrab env st).
Proof.
  intros Hs H. unfold moveToGrab. rewrite forEachStep_flat.
  apply Q_addLog.
  apply Q_forEachCommand; [ now apply okCommand_tokens | exact Hs | ].
  now apply Q_addLog.
Qed.

Lemma Q_moveToReach env st :
  ticksSatisfy okEvent env -> Q st -> Q (moveToReach env st).
Proof.
  intros Hs H. unfold moveToReach. rewrite forEachStep_flat.
  apply Q_addLog.
  apply Q_forEachCommand; [ now apply okCommand_tokens | exact Hs | ].
  now apply Q_addLog.
Qed.

Lemma Q_perform a st :
  actionSatisfies okEvent a -> Q st -> Q (perform a st).
Proof.
  intros Ha H. destruct a as [e | env | env | env | env];
    cbn [perform]; cbn [actionSatisfies] in Ha.
  - now apply Q_handle.
  - now apply Q_moveToHome.
  - now apply Q_moveToGrab.
  - now apply Q_moveToReach.
  - unfold resetAll. apply Q_moveToHome; [ exact Ha | now apply Q_addLog ].
Qed.

Lemma Q_session actions :
  Q initialState ->
  Forall (actionSatisfies okEvent) actions ->
  Q (session actions).
Proof.
  intros H0. induction actions as [| a actions IH] using rev_ind; intros Ha.
  - exact H0.
  - rewrite session_snoc. apply Forall_app in Ha as [Hs Hl].
    inversion Hl; subst. apply Q_perform; [ assumption | now apply IH ].
Qed.

End Invariant.

Lemma actionSatisfies_True actions :
  Forall (actionSatisfies (fun _ => True)) actions.
Proof.
  apply Forall_forall. intros a _.
  assert (forall env, ticksSatisfy (fun _ => True) env) as Ht.
  { intros env. apply Forall_forall. intros t _.
    apply Forall_forall. intros e _. exact I. }
  destruct a; simpl; auto.
Qed.

(** ** The connection *)

Lemma handles_updateLocalAngle command st :
  device (updateLocalAngle command st) = device st /\
  server (updateLocalAngle command st) = server st /\
  service (updateLocalAngle command st) = service st /\
  rxCharacteristic (updateLocalAngle command st) = rxCharacteristic st.
Proof.
  unfold updateLocalAngle.
  repeat match goal with
         | |- context [String.eqb command ?t] =>
             destruct (String.eqb command t); [ repeat split | ]
         end.
  repeat split.
Qed.

Lemma handles_sendCommand w command st :
  device (sendCommand w command st) = device st /\
  server (sendCommand w command st) = server st /\
  service (sendCommand w command st) = service st /\
  rxCharacteristic (sendCommand w command st) = rxCharacteristic st.
Proof.
  unfold sendCommand. destruct (negb (linkReady st)); [ repeat split | ].
  destruct w as [| message]; cbv beta iota zeta; [ | repeat split ].
  apply (handles_updateLocalAngle command
           (addLog ("Sent command: " ++ command)%string Success
              (writeValue command Accepted st))).
Qed.

Lemma linkChain_transport st st' :
  device st' = device st ->
  server st' = server st ->
  service st' = service st ->
  rxCharacteristic st' = rxCharacteristic st ->
  linkChain st -> linkChain st'.
Proof. unfold linkChain. intros -> -> -> ->. exact (fun H => H). Qed.

Lemma linkChain_sendCommand w command st :
  linkChain st -> linkChain (sendCommand w command st).
Proof.
  destruct (handles_sendCommand w command st) as (Hd & Hs & Hv & Hr).
  now apply linkChain_transport.
Qed.

Lemma linkChain_connectDevice r st :
  linkChain st -> linkChain (connectDevice r st).
Proof.
  unfold linkChain. intros (H1 & H2 & H3).
  destruct r; simpl; repeat split; auto; try discriminate.
Qed.

Lemma linkChain_handle e st : linkChain st -> linkChain (handle e st).
Proof.
  intros H. destruct e as [r | g l t | | command w | key w]; simpl.
  - now apply linkChain_connectDevice.
  - unfold disconnectDevice.
    destruct (device st) eqn:Hd; [ | exact H ].
    destruct g; [ | exact H ].
    destruct l.
    + unfold linkChain. destruct t; simpl; repeat split; discriminate.
    + destruct t; apply (linkChain_transport st); auto.
  - unfold linkChain. simpl. repeat split; discriminate.
  - now apply linkChain_sendCommand.
  - unfold keydown. destruct (negb (linkReady st)); [ exact H | ].
    destruct (lookup key keyMap); [ now apply linkChain_sendCommand | exact H ].
Qed.

Lemma linkChain_session actions : linkChain (session actions).
Proof.
  apply (Q_session linkChain (fun _ => True) (fun _ => True)).
  - intros w command st _. apply linkChain_sendCommand.
  - intros e st _. apply linkChain_handle.
  - intros message type st H. exact H.
  - intros joint st H. exact H.
  - intros command _. exact I.
  - unfold linkChain. simpl. repeat split; discriminate.
  - apply actionSatisfies_True.
Qed.

(** X1.  In every session the handles form a chain: [rxCharacteristic] is
    set only with [service], [service] only with [server], [server] only
    with [device].  So the guard of [sendCommand] comes to
    [rxCharacteristic] alone. *)
Theorem session_handles_chained actions :
  linkChain (session actions) /\
  linkReady (session actions) = rxCharacteristic (session actions).
Proof.
  pose proof (linkChain_session actions) as Hc. split; [ exact Hc | ].
  destruct Hc as (H1 & H2 & H3). unfold linkReady.
  destruct (device (session actions)) eqn:Hd; [ reflexivity | ].
  destruct (rxCharacteristic (session actions)); [ | reflexivity ].
  exfalso. apply H3; [ apply H2, H1; reflexivity | reflexivity ].
Qed.

(** X2.  In every session, whenever [sendCommand] would pass its guard,
    [updateUIState] has the joint, preset and Disconnect buttons enabled
    and the Connect button disabled. *)
Theorem session_guard_open_buttons_enabled actions :
  linkReady (session actions) = true ->
  updateUIState (session actions) =
    {| connectBtn := true; disconnectBtn := false; jointButtons := false |}.
Proof.
  destruct (linkChain_session actions) as (H1 & H2 & H3).
  unfold linkReady, updateUIState.
  destruct (device (session actions)); [ | discriminate ].
  intros Hr. rewrite (H2 (H1 Hr)). reflexivity.
Qed.

Lemma session_guard_open_buttons_enabled_witness :
  linkReady (session [ connects; PresetGrab [] ]) = true /\
  updateUIState (session [ connects; PresetGrab [] ]) =
    {| connectBtn := true; disconnectBtn := false; jointButtons := false |}.
Proof.
  split; [ reflexivity | ].
  apply (session_guard_open_buttons_enabled [ connects; PresetGrab [] ]).
  reflexivity.
Defined.

(** X3.  Starting without a characteristic, [connectDevice] opens the
    guard of [sendCommand] exactly when all four of its steps succeed. *)
Theorem connectDevice_opens_guard_iff r st :
  rxCharacteristic st = false ->
  (linkReady (connectDevice r st) = true <-> exists name, r = Connected name).
Proof.
  intros Hrx. unfold linkReady. split.
  - destruct r as [m | n m | n m | n m | n]; simpl; rewrite ?Hrx.
    + destruct (device st); discriminate.
    + discriminate.
    + discriminate.
    + discriminate.
    + intros _. now exists n.
  - intros [name ->]. reflexivity.
Qed.

Lemma connectDevice_opens_guard_iff_witness :
  rxCharacteristic initialState = false /\
  (linkReady (connectDevice (Connected "RoboticArm-BLE") initialState) = true <->
   exists name, Connected "RoboticArm-BLE" = Connected name).
Proof.
  split; [ reflexivity | ].
  apply (connectDevice_opens_guard_iff (Connected "RoboticArm-BLE") initialState).
  reflexivity.
Defined.

(** X4.  A connection attempt that fails logs the error and then the
    disconnected status as its last two lines; it leaves
    [rxCharacteristic], the angles and the writes as they were. *)
Theorem connectDevice_failure_reported r message st :
  connectError r = Some message ->
  (exists lines,
     console (connectDevice r st) =
     console st ++ lines ++
     [ (("Connection error: " ++ message)%string, Error); disconnectedLine ]) /\
  rxCharacteristic (connectDevice r st) = rxCharacteristic st /\
  jointAngles (connectDevice r st) = jointAngles st /\
  written (connectDevice r st) = written st.
Proof.
  intros He. split; [ | destruct r; try discriminate He; repeat split ].
  destruct r as [m | n m | n m | n m | n]; simpl in He;
    try discriminate He; injection He as ->; simpl;
    rewrite <- ?app_assoc; simpl; eexists;
    (apply f_equal2; [ reflexivity | ]).
  - instantiate (1 := [("Scanning for BLE devices...", Info)]). reflexivity.
  - instantiate (1 := [("Scanning for BLE devices...", Info);
                       (("Found device: " ++ n)%string, Info)]). reflexivity.
  - instantiate (1 := [("Scanning for BLE devices...", Info);
                       (("Found device: " ++ n)%string, Info);
                       ("Connected to GATT server", Success)]). reflexivity.
  - instantiate (1 := [("Scanning for BLE devices...", Info);
                       (("Found device: " ++ n)%string, Info);
                       ("Connected to GATT server", Success);
                       ("Found Nordic UART service", Success)]). reflexivity.
Qed.

Lemma connectDevice_failure_reported_witness :
  connectError (GattConnectFailed "RoboticArm-BLE" "GATT Server is disconnected") =
    Some "GATT Server is disconnected" /\
  jointAngles (connectDevice
    (GattConnectFailed "RoboticArm-BLE" "GATT Server is disconnected")
    initialState) = jointAngles initialState.
Proof.
  split; [ reflexivity | ].
  exact (proj1 (proj2 (proj2 (connectDevice_failure_reported
    (GattConnectFailed "RoboticArm-BLE" "GATT Server is disconnected")
    "GATT Server is disconnected" initialState eq_refl)))).
Defined.

(** X5.  When a connection attempt started without a characteristic fails
    at the service or at the characteristic, the server is already set:
    [updateUIState] then enables the joint and preset buttons and disables
    Connect, while [sendCommand] refuses every command and the key
    listener ignores every key. *)
Theorem connectDevice_late_failure_enables_buttons r name message st :
  rxCharacteristic st = false ->
  r = GetServiceFailed name message \/ r = GetCharacteristicFailed name message ->
  updateUIState (connectDevice r st) =
    {| connectBtn := true; disconnectBtn := false; jointButtons := false |} /\
  (forall w command,
     sendCommand w command (connectDevice r st) =
     addLog "Error: Device not connected" Error (connectDevice r st)) /\
  (forall w key, keydown w key (connectDevice r st) = connectDevice r st).
Proof.
  intros Hrx Hr.
  assert (linkReady (connectDevice r st) = false) as Hl.
  { unfold linkReady. destruct Hr as [-> | ->]; simpl; exact Hrx. }
  split; [ destruct Hr as [-> | ->]; reflexivity | ]. split.
  - intros w command. now apply sendCommand_notReady.
  - intros w key. unfold keydown. rewrite Hl. reflexivity.
Qed.

Lemma connectDevice_late_failure_enables_buttons_witness :
  rxCharacteristic initialState = false /\
  jointButtons (updateUIState
    (connectDevice (GetServiceFailed "RoboticArm-BLE" "No Services found")
       initialState)) = false /\
  written (sendCommand Accepted "A"
    (connectDevice (GetServiceFailed "RoboticArm-BLE" "No Services found")
       initialState)) = [].
Proof.
  split; [ reflexivity | ].
  destruct (connectDevice_late_failure_enables_buttons
              (GetServiceFailed "RoboticArm-BLE" "No Services found")
              "RoboticArm-BLE" "No Services found" initialState
              eq_refl (or_introl eq_refl)) as (Hb & Hs & _).
  split.
  - rewrite Hb. reflexivity.
  - rewrite Hs. reflexivity.
Defined.

(** X6.  A click on Disconnect does nothing at all when there is no
    device or its GATT server is not connected.  Otherwise, when the call
    of [device.gatt.disconnect()] runs the listener, the handles are
    cleared and the guard of [sendCommand] is closed before
    [disconnectDevice] is over, and the log reads [Disconnected from BLE
    device] and then [Disconnecting from device...]; when no listener runs,
    the handles and the guard stay as they were.  In no case does an angle
    or a write change. *)
Theorem disconnectDevice_runs_listener gattConnected listenerRan thrown st :
  (device st = None \/ gattConnected = false ->
   disconnectDevice gattConnected listenerRan thrown st = st) /\
  (device st <> None ->
   disconnectDevice true true None st =
     addLog "Disconnecting from device..." Info (onDisconnected st) /\
   device (disconnectDevice true true None st) = None /\
   rxCharacteristic (disconnectDevice true true None st) = false /\
   linkReady (disconnectDevice true true None st) = false /\
   console (disconnectDevice true true None st) =
     console st ++
     [ disconnectedLine; ("Disconnecting from device...", Info) ]) /\
  (device (disconnectDevice gattConnected false thrown st) = device st /\
   rxCharacteristic (disconnectDevice gattConnected false thrown st) =
     rxCharacteristic st /\
   linkReady (disconnectDevice gattConnected false thrown st) = linkReady st) /\
  jointAngles (disconnectDevice gattConnected listenerRan thrown st) =
    jointAngles st /\
  written (disconnectDevice gattConnected listenerRan thrown st) = written st.
Proof.
  split; [ | split; [ | split; [ | split ] ] ].
  - unfold disconnectDevice. intros [Hd | Hg].
    + rewrite Hd. reflexivity.
    + rewrite Hg. destruct (device st); reflexivity.
  - intros Hd. unfold disconnectDevice, linkReady.
    destruct (device st) as [d |]; [ | contradiction ].
    repeat split. simpl. rewrite <- app_assoc. reflexivity.
  - unfold disconnectDevice, linkReady.
    destruct (device st) as [d |] eqn:Hd; destruct gattConnected;
      try destruct thrown; simpl; rewrite ?Hd; repeat split.
  - unfold disconnectDevice.
    destruct (device st), gattConnected, listenerRan, thrown; reflexivity.
  - unfold disconnectDevice.
    destruct (device st), gattConnected, listenerRan, thrown; reflexivity.
Qed.

Lemma disconnectDevice_runs_listener_witness :
  device connectedState <> None /\
  linkReady connectedState = true /\
  linkReady (disconnectDevice true true None connectedState) = false /\
  console (disconnectDevice true true None connectedState) =
    console connectedState ++
    [ disconnectedLine; ("Disconnecting from device...", Info) ] /\
  (device initialState = None \/ true = false) /\
  disconnectDevice true true None initialState = initialState.
Proof.
  assert (device connectedState <> None) as Hd by discriminate.
  destruct (proj1 (proj2 (disconnectDevice_runs_listener true true None
                            connectedState)) Hd) as (_ & _ & _ & Hl & Hc).
  split; [ exact Hd | ]. split; [ reflexivity | ].
  split; [ exact Hl | ]. split; [ exact Hc | ].
  split; [ left; reflexivity | ].
  apply (proj1 (disconnectDevice_runs_listener true true None initialState)).
  left. reflexivity.
Defined.

(** X7.  With the link down a key press is ignored without a trace, where
    a click on a joint button logs that the device is not connected. *)
Theorem keydown_silent_without_link w key command st :
  linkReady st = false ->
  handle (KeyPress key w) st = st /\
  console (handle (ClickJoint command w) st) = console st ++ [notConnectedLine].
Proof.
  intros Hl. split.
  - simpl. unfold keydown. rewrite Hl. reflexivity.
  - simpl. rewrite (sendCommand_notReady w command st Hl). reflexivity.
Qed.

Lemma keydown_silent_without_link_witness :
  linkReady initialState = false /\
  handle (KeyPress "a" Accepted) initialState = initialState.
Proof.
  split; [ reflexivity | ].
  exact (proj1 (keydown_silent_without_link Accepted "a" "A" initialState eq_refl)).
Defined.

Lemma isToken_cases command :
  isToken command = true ->
  command = "A" \/ command = "B" \/ command = "C" \/ command = "D" \/
  command = "E" \/ command = "F" \/ command = "G" \/ command = "H" \/
  command = "I" \/ command = "J".
Proof.
  unfold isToken, tokens. simpl.
  repeat match goal with
         | |- context [String.eqb command ?t] =>
             destruct (String.eqb_spec command t) as [-> | _]; [ tauto | ]
         end.
  discriminate.
Qed.

(** X8.  The key listener knows each token under two keys, the token itself
    and its lower-case letter, and no other key; with the link up, a press
    of such a key is the [sendCommand] of its token. *)
Theorem keydown_sends_token_of_key key token :
  (lookup key keyMap = Some token <->
   isToken token = true /\ (key = token \/ key = lowerKey token)) /\
  (forall w st,
     linkReady st = true ->
     lookup key keyMap = Some token ->
     keydown w key st = sendCommand w token st).
Proof.
  split; [ split | ].
  - unfold keyMap. simpl.
    repeat match goal with
           | |- context [String.eqb key ?k] =>
               destruct (String.eqb_spec key k) as [-> | _];
               [ intros [= <-]; split; [ reflexivity | ];
                 first [ left; reflexivity | right; reflexivity ] | ]
           end.
    discriminate.
  - intros [Ht Hk]. apply isToken_cases in Ht.
    repeat (destruct Ht as [-> | Ht]; [ destruct Hk as [-> | ->]; reflexivity | ]).
    subst token. destruct Hk as [-> | ->]; reflexivity.
  - intros w st Hl Hk. unfold keydown. rewrite Hl, Hk. reflexivity.
Qed.

Lemma keydown_sends_token_of_key_witness :
  linkReady connectedState = true /\
  lookup "e" keyMap = Some "E" /\
  keydown Accepted "e" connectedState = sendCommand Accepted "E" connectedState.
Proof.
  split; [ reflexivity | ]. split; [ reflexivity | ].
  apply (proj2 (keydown_sends_token_of_key "e" "E")); reflexivity.
Defined.

(** X9.  Connecting, disconnecting and losing the link, in any order and
    any number of times, leave the angles and the writes untouched: the
    angles are not put back to their initial values by a new connection. *)
Theorem connection_events_keep_angles events st :
  forallb isConnectionEvent events = true ->
  jointAngles (handleAll events st) = jointAngles st /\
  written (handleAll events st) = written st.
Proof.
  revert st. induction events as [| e events IH]; intros st He.
  - split; reflexivity.
  - simpl in He. apply andb_prop in He as [He1 He2].
    simpl. destruct (IH (handle e st) He2) as [Ha Hw].
    rewrite Ha, Hw.
    destruct e as [r | g l t | | c w | k w]; try discriminate He1; simpl.
    + destruct r; split; reflexivity.
    + unfold disconnectDevice.
      destruct (device st), g, l, t; split; reflexivity.
    + split; reflexivity.
Qed.

Lemma connection_events_keep_angles_witness :
  forallb isConnectionEvent
    [ ClickDisconnect true true None;
      ClickConnect (Connected "RoboticArm-BLE") ] = true /\
  jointAngles (handleAll
    [ ClickDisconnect true true None;
      ClickConnect (Connected "RoboticArm-BLE") ]
    (sendCommand Accepted "A" connectedState)) =
  jointAngles (sendCommand Accepted "A" connectedState).
Proof.
  split; [ reflexivity | ].
  apply (connection_events_keep_angles
    [ ClickDisconnect true true None;
      ClickConnect (Connected "RoboticArm-BLE") ]
    (sendCommand Accepted "A" connectedState)).
  reflexivity.
Defined.

(** ** Steps and their composition *)

Ltac decide_sign :=
  change (Z.ltb 0 10) with true; change (Z.ltb 0 (-10)) with false; cbv iota.

Lemma turn_token token joint delta a :
  In (token, (joint, delta)) tokenTable ->
  turn token a = setAngle joint (stepped joint delta a) a.
Proof.
  intros Hin. unfold turn.
  rewrite (updateLocalAngle_token token joint delta _ Hin). reflexivity.
Qed.

Lemma setAngle_getAngle joint a : setAngle joint (getAngle joint a) a = a.
Proof. destruct joint, a; reflexivity. Qed.

Lemma stepped_again joint delta k a :
  delta = 10 \/ delta = -10 ->
  0 < k ->
  stepped joint delta (setAngle joint (stepped joint (delta * k) a) a) =
  stepped joint (delta * (k + 1)) a.
Proof.
  intros Hd Hk. unfold stepped. rewrite getAngle_setAngle_same.
  destruct Hd as [-> | ->].
  - destruct (Z.ltb_spec 0 (10 * k)); [ | lia ].
    destruct (Z.ltb_spec 0 (10 * (k + 1))); [ | lia ].
    decide_sign. lia.
  - destruct (Z.ltb_spec 0 (-10 * k)); [ lia | ].
    destruct (Z.ltb_spec 0 (-10 * (k + 1))); [ lia | ].
    decide_sign. lia.
Qed.

Lemma iter_token token joint delta n st :
  In (token, (joint, delta)) tokenTable ->
  jointAngles (Nat.iter (S n) (updateLocalAngle token) st) =
  setAngle joint (stepped joint (delta * Z.of_nat (S n)) (jointAngles st))
    (jointAngles st).
Proof.
  intros Hin. pose proof (tokenTable_delta token joint delta Hin) as Hd.
  induction n as [| n IH].
  - simpl Nat.iter. rewrite (updateLocalAngle_token _ _ _ _ Hin).
    replace (delta * Z.of_nat 1) with delta by lia. reflexivity.
  - rewrite Nat.iter_succ.
    rewrite (updateLocalAngle_token _ _ _ _ Hin).
    unfold updateAngleDisplay. cbn [jointAngles].
    rewrite IH.
    replace (Z.of_nat (S (S n))) with (Z.of_nat (S n) + 1) by lia.
    rewrite <- (stepped_again joint delta (Z.of_nat (S n)) (jointAngles st) Hd)
      by lia.
    destruct joint; reflexivity.
Qed.

(** X10.  Pressing one token [n] times, [n] at least 1, moves its joint by
    [10 * n] degrees in one go, cut off once at the limit on that side, and
    moves no other joint: the cut-offs along the way add nothing. *)
Theorem repeated_token_closed_form token joint delta n st :
  In (token, (joint, delta)) tokenTable ->
  (0 < n)%nat ->
  getAngle joint (jointAngles (Nat.iter n (updateLocalAngle token) st)) =
    stepped joint (delta * Z.of_nat n) (jointAngles st) /\
  (forall other, other <> joint ->
     getAngle other (jointAngles (Nat.iter n (updateLocalAngle token) st)) =
     getAngle other (jointAngles st)).
Proof.
  intros Hin Hn. destruct n as [| n]; [ lia | ].
  rewrite (iter_token token joint delta n st Hin). split.
  - apply getAngle_setAngle_same.
  - intros other Ho. now apply getAngle_setAngle_other.
Qed.

Lemma repeated_token_closed_form_witness :
  In ("C", (JShoulder, 10)) tokenTable /\
  (0 < 12)%nat /\
  getAngle JShoulder
    (jointAngles (Nat.iter 12 (updateLocalAngle "C") initialState)) =
  stepped JShoulder (10 * Z.of_nat 12) (jointAngles initialState).
Proof.
  assert (In ("C", (JShoulder, 10)) tokenTable) as Hin.
  { simpl. do 2 right. left. reflexivity. }
  assert (0 < 12)%nat as Hn by lia.
  split; [ exact Hin | ]. split; [ exact Hn | ].
  exact (proj1 (repeated_token_closed_form "C" JShoulder 10 12 initialState
                  Hin Hn)).
Defined.

(** X11.  The decrement token of a joint undoes its increment token exactly
    when the angle was at least the minimum and at most the maximum less
    10; at the maximum, or above the maximum less 10, it does not. *)
Theorem decrement_undoes_increment_iff tokenInc tokenDec joint st :
  In (tokenInc, (joint, 10)) tokenTable ->
  In (tokenDec, (joint, -10)) tokenTable ->
  (jointAngles (updateLocalAngle tokenDec (updateLocalAngle tokenInc st)) =
   jointAngles st <->
   minBound joint <= getAngle joint (jointAngles st) <= maxBound joint - 10).
Proof.
  intros Hi Hd.
  rewrite (updateLocalAngle_token _ _ _ _ Hd).
  rewrite (updateLocalAngle_token _ _ _ _ Hi).
  simpl jointAngles. unfold stepped. decide_sign.
  rewrite getAngle_setAngle_same.
  destruct (jointAngles st) as [b s e w g].
  destruct joint; simpl; split.
  all: try (intros [= H]; lia).
  all: intros H; f_equal; lia.
Qed.

Lemma decrement_undoes_increment_iff_witness :
  In ("A", (JBase, 10)) tokenTable /\
  In ("B", (JBase, -10)) tokenTable /\
  (jointAngles (updateLocalAngle "B" (updateLocalAngle "A" initialState)) =
   jointAngles initialState <->
   minBound JBase <= getAngle JBase (jointAngles initialState) <=
     maxBound JBase - 10).
Proof.
  assert (In ("A", (JBase, 10)) tokenTable) as Hi.
  { simpl. left. reflexivity. }
  assert (In ("B", (JBase, -10)) tokenTable) as Hd.
  { simpl. right. left. reflexivity. }
  split; [ exact Hi | ]. split; [ exact Hd | ].
  exact (decrement_undoes_increment_iff "A" "B" JBase initialState Hi Hd).
Defined.

(** X12.  A token whose joint already stands at the limit it moves towards
    is sent all the same: the write is made and logged, and no angle
    changes. *)
Theorem sendCommand_at_limit token joint delta st :
  In (token, (joint, delta)) tokenTable ->
  linkReady st = true ->
  getAngle joint (jointAngles st) =
    (if Z.ltb 0 delta then maxBound joint else minBound joint) ->
  written (sendCommand Accepted token st) = written st ++ [(token, Accepted)] /\
  console (sendCommand Accepted token st) =
    console st ++ [(("Sent command: " ++ token)%string, Success)] /\
  jointAngles (sendCommand Accepted token st) = jointAngles st.
Proof.
  intros Hin Hl Hat.
  destruct (sendCommand_ready Accepted token st Hl) as (Hw & Hc & Ha & _).
  split; [ exact Hw | ]. split; [ exact Hc | ].
  rewrite Ha. simpl isAccepted. cbv iota.
  rewrite (turn_token token joint delta _ Hin).
  rewrite <- (setAngle_getAngle joint (jointAngles st)) at 3.
  f_equal. unfold stepped. rewrite Hat.
  destruct (tokenTable_delta token joint delta Hin) as [-> | ->];
    decide_sign; destruct joint; simpl; lia.
Qed.

Lemma sendCommand_at_limit_witness :
  In ("D", (JShoulder, -10)) tokenTable /\
  linkReady (sendCommand Accepted "D" connectedState) = true /\
  getAngle JShoulder (jointAngles (sendCommand Accepted "D" connectedState)) =
    (if Z.ltb 0 (-10) then maxBound JShoulder else minBound JShoulder) /\
  jointAngles (sendCommand Accepted "D" (sendCommand Accepted "D" connectedState)) =
    jointAngles (sendCommand Accepted "D" connectedState).
Proof.
  assert (In ("D", (JShoulder, -10)) tokenTable) as Hin.
  { simpl. do 3 right. left. reflexivity. }
  split; [ exact Hin | ]. split; [ reflexivity | ]. split; [ reflexivity | ].
  exact (proj2 (proj2 (sendCommand_at_limit "D" JShoulder (-10)
                         (sendCommand Accepted "D" connectedState)
                         Hin eq_refl eq_refl))).
Defined.

(** ** The presets, undisturbed *)

Lemma nextTick_allAccepted env t env' :
  allAccepted env -> nextTick env = (t, env') ->
  settles t = Accepted /\ allAccepted env'.
Proof.
  intros Ha. destruct env as [| t0 env0]; simpl; intros [= <- <-].
  - split; [ reflexivity | constructor ].
  - inversion Ha; subst. split; assumption.
Qed.

Lemma settlements_allAccepted n env :
  allAccepted env -> settlements n env = repeat Accepted n.
Proof.
  revert env. induction n as [| n IH]; intros env Ha.
  - reflexivity.
  - simpl. destruct (nextTick env) as [t env'] eqn:Hn.
    destruct (nextTick_allAccepted _ _ _ Ha Hn) as [-> Ha'].
    now rewrite (IH env' Ha').
Qed.

Lemma turn_tokens a :
  turn "B" a = setAngle JBase (Z.max (base a - 10) 0) a /\
  turn "C" a = setAngle JShoulder (Z.min (shoulder a + 10) 210) a /\
  turn "D" a = setAngle JShoulder (Z.max (shoulder a - 10) 120) a /\
  turn "E" a = setAngle JElbow (Z.min (elbow a + 10) 180) a /\
  turn "F" a = setAngle JElbow (Z.max (elbow a - 10) 0) a /\
  turn "G" a = setAngle JWrist (Z.min (wrist a + 10) 180) a /\
  turn "H" a = setAngle JWrist (Z.max (wrist a - 10) 0) a /\
  turn "I" a = setAngle JGripper (Z.min (gripper a + 10) 180) a /\
  turn "J" a = setAngle JGripper (Z.max (gripper a - 10) 0) a.
Proof. repeat split. Qed.

Ltac turn_all :=
  unfold turnAll; cbn [fold_left];
  repeat match goal with
         | |- context [turn ?c (mkAngles ?b ?s ?e ?w ?g)] =>
             let H := fresh in
             pose proof (turn_tokens (mkAngles b s e w g)) as H;
             cbn [setAngle base shoulder elbow wrist gripper] in H;
             first
               [ rewrite (proj1 H)
               | rewrite (proj1 (proj2 H))
               | rewrite (proj1 (proj2 (proj2 H)))
               | rewrite (proj1 (proj2 (proj2 (proj2 H))))
               | rewrite (proj1 (proj2 (proj2 (proj2 (proj2 H)))))
               | rewrite (proj1 (proj2 (proj2 (proj2 (proj2 (proj2 H))))))
               | rewrite (proj1 (proj2 (proj2 (proj2 (proj2 (proj2 (proj2 H)))))))
               | rewrite (proj1 (proj2 (proj2 (proj2 (proj2 (proj2 (proj2
                            (proj2 H))))))))
               | rewrite (proj2 (proj2 (proj2 (proj2 (proj2 (proj2 (proj2
                            (proj2 H)))))))) ];
             clear H
         end.

Lemma turnAll_grab a : turnAll (expand grabSequence) a = grabPose a.
Proof.
  destruct a as [b s e w g]. unfold expand, grabSequence.
  cbn [flat_map repeat cmd count app]. turn_all.
  unfold grabPose. cbn [base shoulder elbow wrist gripper]. f_equal; lia.
Qed.

Lemma turnAll_reach a : turnAll (expand reachSequence) a = reachPose a.
Proof.
  destruct a as [b s e w g]. unfold expand, reachSequence.
  cbn [flat_map repeat cmd count app]. turn_all.
  unfold reachPose. cbn [base shoulder elbow wrist gripper]. f_equal; lia.
Qed.

Lemma turnAll_iter token n st :
  turnAll (repeat token n) (jointAngles st) =
  jointAngles (Nat.iter n (updateLocalAngle token) st).
Proof.
  revert st. induction n as [| n IH]; intros st.
  - reflexivity.
  - rewrite Nat.iter_succ_r. rewrite <- IH.
    rewrite jointAngles_updateLocalAngle. reflexivity.
Qed.

(** A run of one token, sent at least once, in one step. *)
Lemma turnAll_repeat token joint delta n a :
  In (token, (joint, delta)) tokenTable ->
  turnAll (repeat token (S n)) a =
  setAngle joint (stepped joint (delta * Z.of_nat (S n)) a) a.
Proof.
  intros Hin.
  exact (eq_trans
    (turnAll_iter token (S n)
       {| device := None; server := false; service := false;
          rxCharacteristic := false; jointAngles := a;
          console := []; written := [] |})
    (iter_token token joint delta n _ Hin)).
Qed.

Lemma turnAll_app l1 l2 a : turnAll (l1 ++ l2) a = turnAll l2 (turnAll l1 a).
Proof. unfold turnAll. apply fold_left_app. Qed.

Lemma turnAll_home a : turnAll homeCommands a = loweredPose a.
Proof.
  change homeCommands with
    (repeat "B" 5 ++ repeat "D" 5 ++ repeat "F" 5 ++ repeat "H" 5 ++
     repeat "J" 5)%list.
  rewrite !turnAll_app.
  rewrite (turnAll_repeat "B" JBase (-10) 4) by (simpl; tauto).
  rewrite (turnAll_repeat "D" JShoulder (-10) 4) by (simpl; tauto).
  rewrite (turnAll_repeat "F" JElbow (-10) 4) by (simpl; tauto).
  rewrite (turnAll_repeat "H" JWrist (-10) 4) by (simpl; tauto).
  rewrite (turnAll_repeat "J" JGripper (-10) 4) by (simpl; tauto).
  destruct a as [b s e w g]. reflexivity.
Qed.

(** The writes and the angles of a loop whose writes are all accepted and
    which no event disturbs. *)
Lemma forEachCommand_undisturbed ms commands env st :
  linkReady st = true ->
  calm env ->
  allAccepted env ->
  written (snd (forEachCommand ms commands env st)) =
    written st ++ map (fun c => (c, Accepted)) commands /\
  jointAngles (snd (forEachCommand ms commands env st)) =
    turnAll commands (jointAngles st).
Proof.
  intros Hl Hc Ha.
  destruct (forEachCommand_ready ms commands env st Hl Hc) as (_ & Hw & _ & Hj).
  rewrite Hw, Hj. rewrite (settlements_allAccepted _ env Ha).
  assert (combine commands (repeat Accepted (length commands)) =
          map (fun c => (c, Accepted)) commands) as Hcomb.
  { clear. induction commands as [| c commands IH]; simpl;
      [ reflexivity | now rewrite IH ]. }
  rewrite Hcomb. split; [ reflexivity | ].
  f_equal. unfold delivered. clear.
  induction commands as [| c commands IH]; simpl;
    [ reflexivity | now rewrite IH ].
Qed.

(** X13.  Grab, with the link up, every write accepted and no event during
    its timers, lowers the shoulder by 30 (not below 120), raises the
    elbow by 20 (not above 180) and lowers the gripper by 50 (not below
    0), whatever the angles were; the base and the wrist keep theirs.  It
    writes D three times, E twice and J five times. *)
Theorem moveToGrab_pose env st :
  linkReady st = true ->
  calm env ->
  allAccepted env ->
  jointAngles (moveToGrab env st) = grabPose (jointAngles st) /\
  written (moveToGrab env st) =
    written st ++
    map (fun c => (c, Accepted))
      [ "D"; "D"; "D"; "E"; "E"; "J"; "J"; "J"; "J"; "J" ].
Proof.
  intros Hl Hc Ha. unfold moveToGrab. rewrite forEachStep_flat.
  destruct (forEachCommand_undisturbed 150 (expand grabSequence) env
              (addLog "Moving to GRAB position..." Info st) Hl Hc Ha)
    as [Hw Hj].
  split.
  - cbn [jointAngles addLog] in Hj |- *. rewrite <- turnAll_grab. exact Hj.
  - exact Hw.
Qed.

Lemma moveToGrab_pose_witness :
  linkReady connectedState = true /\
  calm [quiet; quiet] /\
  allAccepted [quiet; quiet] /\
  jointAngles (moveToGrab [quiet; quiet] connectedState) =
    grabPose (jointAngles connectedState).
Proof.
  assert (calm [quiet; quiet]) as Hc by (repeat constructor).
  assert (allAccepted [quiet; quiet]) as Ha by (repeat constructor).
  split; [ reflexivity | ]. split; [ exact Hc | ]. split; [ exact Ha | ].
  exact (proj1 (moveToGrab_pose [quiet; quiet] connectedState eq_refl Hc Ha)).
Defined.

(** X14.  Reach, with the link up, every write accepted and no event
    during its timers, raises the shoulder by 40 (not above 210), the
    elbow by 30, the wrist by 20 and the gripper by 30 (none above 180),
    whatever the angles were; the base keeps its angle.  It writes C four
    times, E three times, G twice and I three times. *)
Theorem moveToReach_pose env st :
  linkReady st = true ->
  calm env ->
  allAccepted env ->
  jointAngles (moveToReach env st) = reachPose (jointAngles st) /\
  written (moveToReach env st) =
    written st ++
    map (fun c => (c, Accepted))
      [ "C"; "C"; "C"; "C"; "E"; "E"; "E"; "G"; "G"; "I"; "I"; "I" ].
Proof.
  intros Hl Hc Ha. unfold moveToReach. rewrite forEachStep_flat.
  destruct (forEachCommand_undisturbed 150 (expand reachSequence) env
              (addLog "Moving to REACH position..." Info st) Hl Hc Ha)
    as [Hw Hj].
  split.
  - cbn [jointAngles addLog] in Hj |- *. rewrite <- turnAll_reach. exact Hj.
  - exact Hw.
Qed.

Lemma moveToReach_pose_witness :
  linkReady connectedState = true /\
  calm [] /\
  allAccepted [] /\
  jointAngles (moveToReach [] connectedState) =
    reachPose (jointAngles connectedState).
Proof.
  assert (calm []) as Hc by constructor.
  assert (allAccepted []) as Ha by constructor.
  split; [ reflexivity | ]. split; [ exact Hc | ]. split; [ exact Ha | ].
  exact (proj1 (moveToReach_pose [] connectedState eq_refl Hc Ha)).
Defined.

(** X15.  The 25 commands of Home, all accepted and undisturbed, lower
    every joint by 50 down to its minimum.  The shoulder they leave is at
    least 120, so it is never the 90 that [moveToHome] stores afterwards. *)
Theorem moveToHome_loop_pose env st :
  linkReady st = true ->
  calm env ->
  allAccepted env ->
  jointAngles (snd (forEachCommand 100 homeCommands env
                      (addLog "Moving to HOME position..." Info st))) =
    loweredPose (jointAngles st) /\
  120 <= shoulder (loweredPose (jointAngles st)) /\
  shoulder (loweredPose (jointAngles st)) <>
    shoulder (jointAngles (moveToHome env st)).
Proof.
  intros Hl Hc Ha.
  destruct (forEachCommand_undisturbed 100 homeCommands env
              (addLog "Moving to HOME position..." Info st) Hl Hc Ha)
    as [_ Hj].
  split; [ rewrite Hj; apply turnAll_home | ].
  rewrite jointAngles_moveToHome. unfold loweredPose, homeAngles.
  cbn [shoulder]. split; lia.
Qed.

Lemma moveToHome_loop_pose_witness :
  linkReady connectedState = true /\
  calm [] /\
  allAccepted [] /\
  jointAngles (snd (forEachCommand 100 homeCommands []
                      (addLog "Moving to HOME position..." Info connectedState))) =
    loweredPose (jointAngles connectedState).
Proof.
  assert (calm []) as Hc by constructor.
  assert (allAccepted []) as Ha by constructor.
  split; [ reflexivity | ]. split; [ exact Hc | ]. split; [ exact Ha | ].
  exact (proj1 (moveToHome_loop_pose [] connectedState eq_refl Hc Ha)).
Defined.

(** ** What sessions never produce *)

Ltac divisible_by_ten :=
  repeat first
    [ assumption
    | apply Z.min_case
    | apply Z.max_case
    | apply Z.divide_add_r
    | apply Z.divide_sub_r
    | apply Z.divide_refl
    | apply Z.divide_0_r
    | (exists 18; reflexivity)
    | (exists 21; reflexivity)
    | (exists 12; reflexivity)
    | (exists 9; reflexivity)
    | (exists (-1); reflexivity) ].

Lemma multipleOfTen_updateLocalAngle command st :
  multipleOfTen (jointAngles st) ->
  multipleOfTen (jointAngles (updateLocalAngle command st)).
Proof.
  intros H.
  pose proof (H JBase) as Hb. pose proof (H JShoulder) as Hs.
  pose proof (H JElbow) as He. pose proof (H JWrist) as Hw.
  pose proof (H JGripper) as Hg.
  simpl in Hb, Hs, He, Hw, Hg.
  unfold updateLocalAngle.
  repeat match goal with
         | |- context [String.eqb command ?t] =>
             destruct (String.eqb command t);
             [ intros joint; destruct joint; simpl; divisible_by_ten | ]
         end.
  exact H.
Qed.

(** X16.  In every session each of the five angles is a multiple of 10. *)
Theorem session_angles_multiples_of_ten actions :
  multipleOfTen (jointAngles (session actions)).
Proof.
  apply (Q_session (fun st => multipleOfTen (jointAngles st))
           (fun _ => True) (fun _ => True)).
  - intros w command st _.
    apply P_sendCommand. apply multipleOfTen_updateLocalAngle.
  - intros e st _. apply P_handle. apply multipleOfTen_updateLocalAngle.
  - intros message type st H. exact H.
  - intros joint st H other. pose proof (H other) as Ho.
    destruct joint, other; simpl in *; divisible_by_ten.
  - intros command _. exact I.
  - intros joint. destruct joint; simpl; divisible_by_ten.
    exists 13. reflexivity.
  - apply actionSatisfies_True.
Qed.

Lemma written_sendCommand_tokens w command st :
  isToken command = true ->
  Forall (fun cw => isToken (fst cw) = true) (written st) ->
  Forall (fun cw => isToken (fst cw) = true) (written (sendCommand w command st)).
Proof.
  intros Ht H. destruct (linkReady st) eqn:Hl.
  - destruct (sendCommand_ready w command st Hl) as (-> & _).
    apply Forall_app. split; [ exact H | ]. constructor; [ exact Ht | constructor ].
  - rewrite (sendCommand_notReady w command st Hl). exact H.
Qed.

Lemma written_handle_tokens e st :
  eventSendsTokens e = true ->
  Forall (fun cw => isToken (fst cw) = true) (written st) ->
  Forall (fun cw => isToken (fst cw) = true) (written (handle e st)).
Proof.
  intros He H. destruct e as [r | g l t | | command w | key w]; simpl.
  - destruct r; exact H.
  - unfold disconnectDevice. destruct (device st), g, l, t; exact H.
  - exact H.
  - now apply written_sendCommand_tokens.
  - unfold keydown. destruct (negb (linkReady st)); [ exact H | ].
    destruct (lookup key keyMap) as [token |] eqn:Hk; [ | exact H ].
    apply written_sendCommand_tokens; [ | exact H ].
    exact (lookup_keyMap_token key token Hk).
Qed.

Lemma actionSendsTokens_satisfies actions :
  forallb actionSendsTokens actions = true ->
  Forall (actionSatisfies (fun e => eventSendsTokens e = true)) actions.
Proof.
  intros H. apply Forall_forall. intros a Hin.
  rewrite forallb_forall in H. specialize (H a Hin).
  assert (forall env,
            forallb tickSendsTokens env = true ->
            ticksSatisfy (fun e => eventSendsTokens e = true) env) as Ht.
  { intros env He. apply Forall_forall. intros t Hi.
    rewrite forallb_forall in He. specialize (He t Hi).
    unfold tickSendsTokens in He. rewrite forallb_forall in He.
    apply Forall_forall. exact He. }
  destruct a; simpl in *; auto.
Qed.

(** X17.  If every joint button clicked in a session carries one of the ten
    tokens, then nothing but the ten tokens is ever written to the
    characteristic: the presets and the key listener send no other
    command. *)
Theorem session_writes_only_tokens actions :
  forallb actionSendsTokens actions = true ->
  Forall (fun cw => isToken (fst cw) = true) (written (session actions)).
Proof.
  intros H.
  apply (Q_session
           (fun st => Forall (fun cw => isToken (fst cw) = true) (written st))
           (fun command => isToken command = true)
           (fun e => eventSendsTokens e = true)).
  - intros w command st. apply written_sendCommand_tokens.
  - intros e st. apply written_handle_tokens.
  - intros message type st H0. exact H0.
  - intros joint st H0. exact H0.
  - intros command Ht. exact Ht.
  - constructor.
  - now apply actionSendsTokens_satisfies.
Qed.

Lemma session_writes_only_tokens_witness :
  forallb actionSendsTokens
    [ connects; Happens (KeyPress "g" Accepted);
      PresetReach [ mkTick Accepted [ClickJoint "B" Accepted] ] ] = true /\
  Forall (fun cw => isToken (fst cw) = true)
    (written (session
      [ connects; Happens (KeyPress "g" Accepted);
        PresetReach [ mkTick Accepted [ClickJoint "B" Accepted] ] ])).
Proof.
  split; [ reflexivity | ].
  apply (session_writes_only_tokens
    [ connects; Happens (KeyPress "g" Accepted);
      PresetReach [ mkTick Accepted [ClickJoint "B" Accepted] ] ]).
  reflexivity.
Defined.

(** ** The log is write-only *)

Lemma prependLog_addLog lines message type st :
  addLog message type (prependLog lines st) =
  prependLog lines (addLog message type st).
Proof. unfold addLog, prependLog. simpl. now rewrite app_assoc. Qed.

Lemma prependLog_updateAngleDisplay lines joint angle st :
  updateAngleDisplay joint angle (prependLog lines st) =
  prependLog lines (updateAngleDisplay joint angle st).
Proof. reflexivity. Qed.

Lemma prependLog_updateLocalAngle lines command st :
  updateLocalAngle command (prependLog lines st) =
  prependLog lines (updateLocalAngle command st).
Proof.
  unfold updateLocalAngle.
  repeat match goal with
         | |- context [String.eqb command ?t] =>
             destruct (String.eqb command t); [ reflexivity | ]
         end.
  reflexivity.
Qed.

Lemma prependLog_sendCommand lines w command st :
  sendCommand w command (prependLog lines st) =
  prependLog lines (sendCommand w command st).
Proof.
  unfold sendCommand.
  change (linkReady (prependLog lines st)) with (linkReady st).
  destruct (negb (linkReady st)); [ apply prependLog_addLog | ].
  change (writeValue command w (prependLog lines st))
    with (prependLog lines (writeValue command w st)).
  destruct w as [| message]; cbv beta iota zeta.
  - rewrite prependLog_addLog. apply prependLog_updateLocalAngle.
  - apply prependLog_addLog.
Qed.

Lemma prependLog_updateConnectionStatus lines connected st :
  updateConnectionStatus connected (prependLog lines st) =
  prependLog lines (updateConnectionStatus connected st).
Proof. destruct connected; apply prependLog_addLog. Qed.

Lemma prependLog_setters lines st :
  (forall d, setDevice d (prependLog lines st) = prependLog lines (setDevice d st)) /\
  (forall b, setServer b (prependLog lines st) = prependLog lines (setServer b st)) /\
  (forall b, setService b (prependLog lines st) = prependLog lines (setService b st)) /\
  (forall b, setRxCharacteristic b (prependLog lines st) =
             prependLog lines (setRxCharacteristic b st)).
Proof. repeat split. Qed.

Ltac push_prependLog :=
  repeat first
    [ rewrite prependLog_addLog
    | rewrite (proj1 (prependLog_setters _ _))
    | rewrite (proj1 (proj2 (prependLog_setters _ _)))
    | rewrite (proj1 (proj2 (proj2 (prependLog_setters _ _))))
    | rewrite (proj2 (proj2 (proj2 (prependLog_setters _ _)))) ].

Lemma prependLog_connectDevice lines r st :
  connectDevice r (prependLog lines st) =
  prependLog lines (connectDevice r st).
Proof.
  destruct r; unfold connectDevice, connectionError, updateConnectionStatus;
    cbv beta iota zeta; push_prependLog; reflexivity.
Qed.

Lemma prependLog_handle lines e st :
  handle e (prependLog lines st) = prependLog lines (handle e st).
Proof.
  destruct e as [r | g l t | | command w | key w]; simpl.
  - apply prependLog_connectDevice.
  - unfold disconnectDevice.
    change (device (prependLog lines st)) with (device st).
    destruct (device st), g, l, t; try reflexivity;
      unfold onDisconnected, updateConnectionStatus; cbv beta iota zeta;
      push_prependLog; reflexivity.
  - unfold onDisconnected, updateConnectionStatus. cbv beta iota zeta.
    push_prependLog. reflexivity.
  - apply prependLog_sendCommand.
  - unfold keydown.
    change (linkReady (prependLog lines st)) with (linkReady st).
    destruct (negb (linkReady st)); [ reflexivity | ].
    destruct (lookup key keyMap); [ apply prependLog_sendCommand | reflexivity ].
Qed.

Lemma prependLog_handleAll lines events st :
  handleAll events (prependLog lines st) =
  prependLog lines (handleAll events st).
Proof.
  revert st. induction events as [| e events IH]; intros st.
  - reflexivity.
  - simpl. rewrite prependLog_handle. apply IH.
Qed.

Lemma prependLog_forEachCommand lines ms commands env st :
  forEachCommand ms commands env (prependLog lines st) =
  (fst (forEachCommand ms commands env st),
   prependLog lines (snd (forEachCommand ms commands env st))).
Proof.
  revert env st. induction commands as [| c commands IH]; intros env st.
  - reflexivity.
  - simpl. destruct (nextTick env) as [t env'].
    unfold sendAndWait, sleep.
    rewrite prependLog_sendCommand, prependLog_handleAll. apply IH.
Qed.

Lemma prependLog_moveToHome lines env st :
  moveToHome env (prependLog lines st) = prependLog lines (moveToHome env st).
Proof.
  unfold moveToHome.
  rewrite prependLog_addLog, prependLog_forEachCommand. cbn [snd].
  rewrite !prependLog_updateAngleDisplay.
  apply prependLog_addLog.
Qed.

Lemma prependLog_presets lines env st :
  moveToGrab env (prependLog lines st) = prependLog lines (moveToGrab env st) /\
  moveToReach env (prependLog lines st) = prependLog lines (moveToReach env st).
Proof.
  unfold moveToGrab, moveToReach. rewrite !forEachStep_flat.
  rewrite !prependLog_addLog, !prependLog_forEachCommand. cbn [snd].
  split; apply prependLog_addLog.
Qed.

Lemma prependLog_perform lines a st :
  perform a (prependLog lines st) = prependLog lines (perform a st).
Proof.
  destruct a as [e | env | env | env | env]; cbn [perform].
  - apply prependLog_handle.
  - apply prependLog_moveToHome.
  - apply (proj1 (prependLog_presets lines env st)).
  - apply (proj2 (prependLog_presets lines env st)).
  - unfold resetAll. rewrite prependLog_addLog. apply prependLog_moveToHome.
Qed.

Lemma prependLog_clearLog st : prependLog (console st) (clearLog st) = st.
Proof. destruct st. unfold prependLog, clearLog. simpl. now rewrite app_nil_r. Qed.

(** X18.  No listener and no preset reads the log: run from a state that
    has further lines logged before its own, any sequence of actions gives
    the same state with those lines before its own.  In particular the
    handles, the angles and the writes it leaves do not depend on what was
    logged. *)
Theorem actions_do_not_read_log lines actions st :
  fold_left (fun s a => perform a s) actions (prependLog lines st) =
  prependLog lines (fold_left (fun s a => perform a s) actions st).
Proof.
  revert st. induction actions as [| a actions IH]; intros st.
  - reflexivity.
  - simpl. rewrite prependLog_perform. apply IH.
Qed.

(** X19.  Reset is Home but for the line it logs first: the two leave the
    same handles, angles and writes, and the log of Reset is the log of
    Home with the line [Resetting all joints...] before the lines of
    Home. *)
Theorem resetAll_is_moveToHome env st :
  device (resetAll env st) = device (moveToHome env st) /\
  rxCharacteristic (resetAll env st) = rxCharacteristic (moveToHome env st) /\
  jointAngles (resetAll env st) = jointAngles (moveToHome env st) /\
  written (resetAll env st) = written (moveToHome env st) /\
  exists lines,
    console (moveToHome env st) = console st ++ lines /\
    console (resetAll env st) =
      console st ++ [("Resetting all joints...", Info)] ++ lines.
Proof.
  assert (moveToHome env st =
          prependLog (console st) (moveToHome env (clearLog st))) as Hh.
  { rewrite <- prependLog_moveToHome. now rewrite prependLog_clearLog. }
  assert (resetAll env st =
          prependLog (console st ++ [("Resetting all joints...", Info)])
            (moveToHome env (clearLog st))) as Hr.
  { unfold resetAll. rewrite <- prependLog_moveToHome. f_equal.
    unfold addLog, prependLog, clearLog. cbn [console]. now rewrite app_nil_r. }
  rewrite Hh, Hr. clear Hh Hr.
  generalize (moveToHome env (clearLog st)). intros home.
  split; [ reflexivity | ]. split; [ reflexivity | ].
  split; [ reflexivity | ]. split; [ reflexivity | ].
  exists (console home). split.
  - reflexivity.
  - simpl. now rewrite <- app_assoc.
Qed.

(** X20.  Every call of [sendCommand] logs exactly one line and calls
    [writeValue] at most once; the line reports success exactly when the
    guard was passed and the write accepted, and is an error otherwise. *)
Theorem sendCommand_logs_one_line w command st :
  exists message type,
    console (sendCommand w command st) = console st ++ [(message, type)] /\
    (written (sendCommand w command st) = written st \/
     written (sendCommand w command st) = written st ++ [(command, w)]) /\
    (type = Success <-> linkReady st = true /\ w = Accepted) /\
    (type = Success \/ type = Error).
Proof.
  destruct (linkReady st) eqn:Hl.
  - destruct (sendCommand_ready w command st Hl) as (Hw & Hc & _).
    rewrite Hw, Hc. destruct w as [| m]; simpl; do 2 eexists;
      (split; [ reflexivity | ]); (split; [ right; reflexivity | ]).
    + split; [ tauto | left; reflexivity ].
    + split; [ | right; reflexivity ].
      split; [ discriminate | intros [_ H]; discriminate H ].
  - rewrite (sendCommand_notReady w command st Hl). simpl.
    do 2 eexists. split; [ reflexivity | ]. split; [ left; reflexivity | ].
    split; [ | right; reflexivity ].
    split; [ discriminate | intros [H _]; discriminate H ].
Qed.
